(** * Watson mixture model: a shallow embedding of [watson.py]

    The development follows the Python module function by function:
    the series evaluator [kummer], the closed-form concentration bounds
    [lower_bound], [bound] and [upper_bound], the two initialisers, the
    expectation and maximisation steps, the convergence test and the EM
    driver [wmm_fit].

    Numbers.  Python floats and numpy [float64] values are read as real
    numbers ([R]), so [+], [*], [/], [abs], [np.sqrt], [np.exp], [np.log],
    [np.arccos], [np.cos], [np.sin] and [np.pi] are the operations of the
    real line.  Rounding, overflow and the IEEE values [inf] and [nan]
    are outside this reading, and the real line has no failing division:
    [x / 0] and [ln 0] are 0 here, where Python raises
    [ZeroDivisionError] and numpy gives [inf], [-inf] or [nan].  The
    places where this shows are
    - [kummer]: a divisor [b + n = 0], and a term that overflows to [inf]
      (for a concentration of 1000 in three dimensions, say), after which
      the source does not leave its loop; the module [KummerFloat] is the
      same loop in binary64 arithmetic;
    - [m_step]: [c - a = 0] in dimension 1 and a component without
      responsibility ([0/0] handed to [np.linalg.eig]);
    - [e_step] and [convergence]: [log 0] with no component, and a
      relative change taken against a log-likelihood of 0.
    A statement about a returned value is to be read on the inputs where
    none of these occurs, and the lemmas on termination ([settles]) are
    lemmas about this reading.
    Python [int]s ([k], [maxiter], [iter], [j]) are integers ([Z]); array
    extents read off a shape ([N], [p]) are naturals.

    Arrays.  A one-dimensional array is a [list R], a two-dimensional
    array is the list of its rows.  The rows of [X] and of [mu] are taken
    to have [p] entries, and a value stored in a slot of a history array
    to have the shape of the slot; what numpy's broadcasting does with
    other shapes, and the [ValueError] it raises when shapes do not fit,
    are not modelled.

    Exceptions.  The model raises where the module can: the assertion
    [p == 3], numpy's [ValueError] for a negative array extent or a seed
    outside 32 bits and for [argmax] of an empty array, and [IndexError]
    for an index outside an array.  Progress messages ([print_t]) are
    left out. *)

From Stdlib Require Import Reals Lra Lia ZArith List String Ascii.
From Stdlib Require Floats Uint63.
From stdpp Require Import base list.
Import ListNotations.

Open Scope R_scope.

(** ** Decidable comparisons on reals, used for the tests of the source *)

#[global] Instance Rlt_decision (x y : R) : Decision (x < y) := Rlt_dec x y.
#[global] Instance Rgt_decision (x y : R) : Decision (x > y) := Rgt_dec x y.
#[global] Instance Rle_decision (x y : R) : Decision (x <= y) := Rle_dec x y.

(** ** Outcomes of a call

    A call either returns, raises one of the exceptions the module can
    raise, or (for the model only) exhausts the fuel that bounds the
    [while] loops. *)

Inductive exn : Set :=
| AssertionError   (* [assert p == 3] *)
| ValueError       (* numpy: negative dimensions are not allowed *)
| IndexError.      (* numpy: index out of bounds *)

Inductive outcome (A : Type) : Type :=
| Done (a : A)
| Raise (e : exn)
| OutOfFuel.

Arguments Done {A} a.
Arguments Raise {A} e.
Arguments OutOfFuel {A}.

#[global] Instance outcome_ret : MRet outcome := fun A a => Done a.

#[global] Instance outcome_bind : MBind outcome := fun A B f m =>
  match m with
  | Done a => f a
  | Raise e => Raise e
  | OutOfFuel => OutOfFuel
  end.

Definition returned {A : Type} (o : outcome A) : Prop :=
  match o with Done _ => True | _ => False end.

Definition terminated {A : Type} (o : outcome A) : Prop :=
  match o with OutOfFuel => False | _ => True end.

(** ** Series evaluator: [kummer] *)

Module Kummer.

(** The body of [while abs(term) > tol]; [fuel] bounds the number of
    passes through the loop. *)
Fixpoint loop (fuel : nat) (a b kappa tol term f : R) (j : Z) : outcome (R * Z) :=
  if decide (Rabs term > tol) then
    match fuel with
    | O => OutOfFuel
    | S fuel' =>
        let j := (j + 1)%Z in
        let a := a + 1 in
        let b := b + 1 in
        let term := term * (a * kappa / b / IZR j) in
        let f := f + term in
        loop fuel' a b kappa tol term f j
    end
  else Done (f, j).

(** Default of the keyword argument [tol]. *)
Definition default_tol : R := 1e-10.

(** [kummer(a, b, kappa, tol, return_iter=True)] *)
Definition kummer_iter (fuel : nat) (a b kappa tol : R) : outcome (R * Z) :=
  let term := a * kappa / b in
  let f := 1 + term in
  loop fuel a b kappa tol term f 1%Z.

(** [kummer(a, b, kappa, tol)] *)
Definition kummer (fuel : nat) (a b kappa tol : R) : outcome R :=
  '(f, _) ← kummer_iter fuel a b kappa tol; mret f.

End Kummer.

(** *** The same loop in binary64 arithmetic

    [kummer] on IEEE binary64 numbers, the arithmetic of Python floats and
    of numpy's [float64]: [a*kappa/b/j] is evaluated from left to right,
    each operation rounded to nearest, and the integer [j] is converted to
    a float where it divides. *)

Module KummerFloat.
Import PrimFloat.

(** The conversion of the Python [int] [j] (exact below [2^53]). *)
Definition of_int (j : Z) : float := of_uint63 (Uint63.of_Z j).

(** The variables of the loop: [a], [b], [term], [f], [j]. *)
Record vars : Set := Vars {
  v_a : float;
  v_b : float;
  v_term : float;
  v_f : float;
  v_j : Z
}.

(** The statements before the loop. *)
Definition start (a b kappa : float) : vars :=
  let term := (a * kappa / b)%float in
  Vars a b term (1 + term)%float 1%Z.

(** One pass through the body of the loop. *)
Definition pass (kappa : float) (s : vars) : vars :=
  let j := (v_j s + 1)%Z in
  let a := (v_a s + 1)%float in
  let b := (v_b s + 1)%float in
  let term := (v_term s * (a * kappa / b / of_int j))%float in
  let f := (v_f s + term)%float in
  Vars a b term f j.

(** [while abs(term) > tol]; the test is false when [term] is [nan]. *)
Fixpoint loop (fuel : nat) (kappa tol : float) (s : vars) : outcome (float * Z) :=
  if (tol <? abs (v_term s))%float then
    match fuel with
    | O => OutOfFuel
    | S fuel' => loop fuel' kappa tol (pass kappa s)
    end
  else Done (v_f s, v_j s).

#[warnings="-inexact-float"]
Definition default_tol : float := 1e-10%float.

(** [kummer(a, b, kappa, tol, return_iter=True)] *)
Definition kummer_iter (fuel : nat) (a b kappa tol : float) : outcome (float * Z) :=
  loop fuel kappa tol (start a b kappa).

(** [kummer(a, b, kappa, tol)] *)
Definition kummer (fuel : nat) (a b kappa tol : float) : outcome float :=
  '(f, _) ← kummer_iter fuel a b kappa tol; mret f.

End KummerFloat.

(** ** Bound estimator: (3.7), (3.8), (3.9) of Sra and Karp *)

Definition lower_bound (a c r : R) : R :=
  (r * c - a) / (r * (1 - r)) * (1 + (1 - r) / (c - a)).

Definition bound (a c r : R) : R :=
  (r * c - a) / (2 * r * (1 - r))
  * (1 + sqrt (1 + (4 * (c + 1) * r * (1 - r)) / (a * (c - a)))).

Definition upper_bound (a c r : R) : R :=
  (r * c - a) / (r * (1 - r)) * (1 + r / a).

(** ** Convergence test *)

(** [llh[i]] for an index inside the array. *)
Definition at_index (llh : list R) (i : Z) : R := nth (Z.to_nat i) llh 0.

(** The relative change printed and tested by [convergence]. *)
Definition rel_change (llh : list R) (iter : Z) : R :=
  (at_index llh iter - at_index llh (iter - 1)) / Rabs (at_index llh (iter - 1)).

(** [convergence(llh, iter, maxiter, tol, verbose)]; the progress messages
    are left out.  The result is the iteration at which the run stops, or
    [-1] to continue. *)
Definition convergence (llh : list R) (iter maxiter : Z) (tol : R) : Z :=
  if decide ((iter > 0)%Z /\ rel_change llh iter < tol) then
    if decide (at_index llh iter - at_index llh (iter - 1) > 0) then iter
    else (iter - 1)%Z
  else if decide (iter >= maxiter - 1)%Z then iter
  else (-1)%Z.

(** ** Arrays *)

Abbreviation vec := (list R).
Abbreviation mat := (list (list R)).

(** [np.sum] of a one-dimensional array. *)
Definition vsum (v : vec) : R := fold_right Rplus 0 v.

(** [M[:, j]] *)
Definition column (j : nat) (M : mat) : vec := map (fun row => nth j row 0) M.

(** [np.einsum('i,i->', u, v)] *)
Definition dot (u v : vec) : R := vsum (zip_with Rmult u v).

(** [np.linalg.norm] of a row. *)
Definition norm (v : vec) : R := sqrt (vsum (map (fun x => x * x) v)).

(** [np.ones(k)] and [np.zeros(k)]: a negative extent is a [ValueError]. *)
Definition full (x : R) (k : Z) : outcome vec :=
  if decide (k < 0)%Z then Raise ValueError else Done (replicate (Z.to_nat k) x).

Definition ones : Z -> outcome vec := full 1.
Definition zeros : Z -> outcome vec := full 0.

(** [l[j]] read at a non-negative index. *)
Definition index {A : Type} (l : list A) (j : nat) : outcome A :=
  match l !! j with
  | Some x => Done x
  | None => Raise IndexError
  end.

(** [l[i] = x] for an index [i >= 0]. *)
Definition store {A : Type} (l : list A) (i : Z) (x : A) : outcome (list A) :=
  if decide (0 <= i < Z.of_nat (length l))%Z
  then Done (<[Z.to_nat i := x]> l)
  else Raise IndexError.

(** [np.argmax]: the first index of the largest entry. *)
Fixpoint argmax_from (best : R) (besti i : nat) (w : vec) : nat :=
  match w with
  | [] => besti
  | x :: w' =>
      if decide (x > best) then argmax_from x i (S i) w'
      else argmax_from best besti (S i) w'
  end.

Definition argmax (w : vec) : outcome nat :=
  match w with
  | [] => Raise ValueError
  | x :: w' => Done (argmax_from x 0%nat 1%nat w')
  end.

(** [str.lower] on ASCII strings. *)
Definition lower_ascii (c : ascii) : ascii :=
  let n := nat_of_ascii c in
  if (65 <=? n)%nat && (n <=? 90)%nat then ascii_of_nat (n + 32) else c.

Fixpoint lower (s : string) : string :=
  match s with
  | EmptyString => EmptyString
  | String c s' => String (lower_ascii c) (lower s')
  end.

(** ** Initialisers *)

(** [golden_spiral_init(k)] *)
Definition golden_spiral_init (k : Z) : outcome (mat * vec * vec) :=
  let indices := map (fun i : nat => INR i + 0.5) (seq 0 (Z.to_nat k)) in
  let phi := map (fun x => acos (1 - 2 * x / (2 * IZR k))) indices in
  let theta := map (fun x => PI * (1 + Rpower 5 0.5) * x) indices in
  let mu := zip_with (fun t p => [cos t * sin p; sin t * sin p; cos p]) theta phi in
  kappa ← ones k;
  pi1 ← ones k;
  let pi := map (fun x => x / IZR k) pi1 in
  mret (mu, kappa, pi).

(** The third argument of [wmm_fit]'s keyword [init]. *)
Inductive init_arg : Type :=
| InitDict (mu : mat) (kappa pi : vec)   (* a dict with keys 'mu', 'kappa', 'pi' *)
| InitStr (s : string)
| InitNone.                              (* [None], or any other object *)

(** What [wmm_fit] returns: the per-iteration arrays when [return_steps]
    is set, the terminal snapshot otherwise. *)
Inductive fit_result : Type :=
| Steps (Mu : list mat) (Kappa : list vec) (Pi : list vec) (llh : vec) (Bounds : list mat)
| Final (mu : mat) (kappa : vec) (pi : vec) (llh : vec) (bounds : mat).

Definition result_llh (r : fit_result) : vec :=
  match r with
  | Steps _ _ _ llh _ => llh
  | Final _ _ _ llh _ => llh
  end.

(** The variables of the EM loop of [wmm_fit]. *)
Record em_state : Type := EmState {
  st_mu : mat;
  st_kappa : vec;
  st_pi : vec;
  st_llh : vec;
  st_Mu : list mat;
  st_Kappa : list vec;
  st_Bounds : list mat;
  st_Pi : list vec;
  st_iter : Z;
  st_converged : Z
}.

(** [X.shape[1]] of a two-dimensional array given by its rows (with no
    row to read it from, the extent is taken to be [0]). *)
Definition ncols (X : mat) : nat :=
  match X with
  | [] => 0%nat
  | row :: _ => length row
  end.

(** S_j of (4.5): [np.einsum('i,ij,ik->jk', beta[:, j], X, X) / np.sum(beta[:, j])] *)
Definition scatter (X beta : mat) (p j : nat) : mat :=
  let bj := column j beta in
  map (fun a =>
         map (fun b => vsum (zip_with (fun w x => w * nth a x 0 * nth b x 0) bj X) / vsum bj)
             (seq 0 p))
      (seq 0 p).

(** [r = 0.99 if r > 0.999 else r] *)
Definition clamp (r : R) : R := if decide (r > 0.999) then 0.99 else r.

(** The row written to [bounds[j, :]]. *)
Definition bound_triple (p : nat) (r : R) : vec :=
  [lower_bound (1 / 2) (INR p / 2) r; bound (1 / 2) (INR p / 2) r;
   upper_bound (1 / 2) (INR p / 2) r].

(** [bounds + gamma*(bounds.mean(axis=0) - bounds)] *)
Definition regularize (gamma : R) (bounds : mat) : mat :=
  let means := map (fun c => vsum (column c bounds) / INR (length bounds)) (seq 0 3) in
  map (fun row => zip_with (fun b m => b + gamma * (m - b)) row means) bounds.

(** ** The EM engine

    The functions of numpy and scipy that the module calls and that are
    not arithmetic are parameters of the development:
    - [seed_rng s] is the state of numpy's global generator after
      [np.random.seed(s)], and [normal] draws one standard normal value
      from a generator state;
    - [Gamma] is [scipy.special.gamma];
    - [eig S] is [np.linalg.eig(S)] with [np.real] applied: the
      eigenvalues, and the matrix whose columns are the eigenvectors. *)

Section EM.

Context {rng_state : Type}.
Variable seed_rng : Z -> rng_state.
Variable normal : rng_state -> R * rng_state.
Variable Gamma : R -> R.
Variable eig : mat -> vec * mat.

(** The state outside the call: numpy's global generator, and the state
    that seeding from the operating system's entropy would install. *)
Record world : Type := World {
  rng : rng_state;
  entropy : rng_state
}.

(** [np.random.seed(seed)] *)
Definition np_random_seed (seed : option Z) (w : world) : outcome unit * world :=
  match seed with
  | None => (Done tt, World (entropy w) (entropy w))
  | Some s =>
      if decide (0 <= s < 2 ^ 32)%Z
      then (Done tt, World (seed_rng s) (entropy w))
      else (Raise ValueError, w)
  end.

(** [n] draws, in order. *)
Fixpoint draw_vec (n : nat) (g : rng_state) : vec * rng_state :=
  match n with
  | O => ([], g)
  | S n' =>
      let '(x, g) := normal g in
      let '(xs, g) := draw_vec n' g in
      (x :: xs, g)
  end.

(** [np.random.normal(size=(rows, cols))], filled row by row. *)
Fixpoint draw_mat (rows cols : nat) (g : rng_state) : mat * rng_state :=
  match rows with
  | O => ([], g)
  | S rows' =>
      let '(r, g) := draw_vec cols g in
      let '(rs, g) := draw_mat rows' cols g in
      (r :: rs, g)
  end.

(** [random_init(k, p)] *)
Definition random_init (k : Z) (p : nat) (g : rng_state)
  : outcome (mat * vec * vec) * rng_state :=
  if decide (k < 0)%Z then (Raise ValueError, g)
  else
    let '(mu, g) := draw_mat (Z.to_nat k) p g in
    let mu := map (fun row => map (fun x => x / norm row) row) mu in
    (kappa ← ones k;
     pi1 ← ones k;
     mret (mu, kappa, map (fun x => x / IZR k) pi1), g).

(** The body of [for j in range(k)] of [e_step]: the column [num[:, j]].
    [fuel] bounds the loop of [kummer]. *)
Definition e_step_column (fuel : nat) (X mu : mat) (kappa pi : vec) (p j : nat)
  : outcome vec :=
  kappa_j ← index kappa j;
  M ← Kummer.kummer fuel (1 / 2) (INR p / 2) kappa_j Kummer.default_tol;
  let cp := Gamma (INR p / 2) / (2 * Rpower PI (INR p / 2) * M) in
  pi_j ← index pi j;
  mu_j ← index mu j;
  mret (map (fun x => pi_j * cp * exp (kappa_j * dot mu_j x ^ 2)) X).

(** [e_step(X, mu, kappa, pi, k, p)] *)
Definition e_step (fuel : nat) (X mu : mat) (kappa pi : vec) (k : Z) (p : nat)
  : outcome (mat * R) :=
  if decide (k < 0)%Z then Raise ValueError
  else
    cols ← mapM (e_step_column fuel X mu kappa pi p) (seq 0 (Z.to_nat k));
    let num := map (fun i => map (fun col => nth i col 0) cols) (seq 0 (length X)) in
    let beta := map (fun row => map (fun x => x / vsum row) row) num in
    let llh := vsum (map (fun row => ln (vsum row)) num) in
    mret (beta, llh).

(** One pass of the loop of [m_step], up to the call of the bound
    estimator: the new mean direction of component [j] and the eigenvalue
    ratio [r] handed to [lower_bound], [bound] and [upper_bound]. *)
Definition component_axis (X beta : mat) (p j : nat) : outcome (vec * R) :=
  let Sj := scatter X beta p j in
  let '(w, v) := eig Sj in
  idx ← argmax w;
  let mu_j := column idx v in
  let r := nth idx w 0 in
  let r := clamp r in
  mret (mu_j, r).

(** [for j in range(k)] of [m_step]. *)
Fixpoint m_step_loop (X beta : mat) (p : nat) (js : list nat) (mu bounds : mat)
  : outcome (mat * mat) :=
  match js with
  | [] => mret (mu, bounds)
  | j :: js' =>
      '(mu_j, r) ← component_axis X beta p j;
      mu ← store mu (Z.of_nat j) mu_j;
      bounds ← store bounds (Z.of_nat j) (bound_triple p r);
      m_step_loop X beta p js' mu bounds
  end.

(** The mixing weights of [m_step]: [np.sum(beta, axis=0)/N], [beta]
    being an array with [k] columns. *)
Definition mixing_weights (beta : mat) (k : Z) (N : nat) : vec :=
  map (fun j => vsum (column j beta) / INR N) (seq 0 (Z.to_nat k)).

(** [m_step(X, mu, beta, k, N, p, gamma)] *)
Definition m_step (X mu beta : mat) (k : Z) (N p : nat) (gamma : R)
  : outcome (mat * vec * vec * mat) :=
  if decide (k < 0)%Z then Raise ValueError
  else
    let bounds := replicate (Z.to_nat k) [0; 0; 0] in
    let pi := mixing_weights beta k N in
    '(mu, bounds) ← m_step_loop X beta p (seq 0 (Z.to_nat k)) mu bounds;
    let bounds := regularize gamma bounds in
    let kappa := column 1 bounds in
    mret (mu, kappa, pi, bounds).

(** One pass through the body of the EM loop of [wmm_fit]; [kfuel] bounds
    the loop of [kummer]. *)
Definition em_pass (kfuel : nat) (X : mat) (k maxiter : Z) (tol gamma : R)
    (st : em_state) : outcome em_state :=
  let N := length X in
  let p := ncols X in
  '(beta, l) ← e_step kfuel X (st_mu st) (st_kappa st) (st_pi st) k p;
  llh ← store (st_llh st) (st_iter st) l;
  '(mu, kappa, pi, bounds) ← m_step X (st_mu st) beta k N p gamma;
  let converged := convergence llh (st_iter st) maxiter tol in
  Mu ← store (st_Mu st) (st_iter st) mu;
  Kappa ← store (st_Kappa st) (st_iter st) kappa;
  Bounds ← store (st_Bounds st) (st_iter st) bounds;
  Pi ← store (st_Pi st) (st_iter st) pi;
  mret (EmState mu kappa pi llh Mu Kappa Bounds Pi (st_iter st + 1) converged).

(** [while converged < 0]; [fuel] bounds the number of passes. *)
Fixpoint em_loop (kfuel fuel : nat) (X : mat) (k maxiter : Z) (tol gamma : R)
    (st : em_state) : outcome em_state :=
  if decide (st_converged st < 0)%Z then
    match fuel with
    | O => OutOfFuel
    | S fuel' =>
        st' ← em_pass kfuel X k maxiter tol gamma st;
        em_loop kfuel fuel' X k maxiter tol gamma st'
    end
  else mret st.

(** The initialisation of [wmm_fit]. *)
Definition initialise (init : init_arg) (k : Z) (p : nat) (g : rng_state)
  : outcome (mat * vec * vec) * rng_state :=
  match init with
  | InitDict mu kappa pi => (Done (mu, kappa, pi), g)
  | InitStr s =>
      if string_dec (lower s) "spiral" then
        if decide (p = 3%nat) then (golden_spiral_init k, g)
        else (Raise AssertionError, g)
      else if string_dec (lower s) "random" then random_init k p g
      else if decide (p = 3%nat) then (golden_spiral_init k, g)
      else random_init k p g
  | InitNone =>
      if decide (p = 3%nat) then (golden_spiral_init k, g)
      else random_init k p g
  end.

(** The allocation of the history and the EM loop, from the initial
    parameters on. *)
Definition run_em (fuel : nat) (X : mat) (k maxiter : Z) (tol gamma : R)
    (mu : mat) (kappa pi : vec) : outcome em_state :=
  llh ← zeros maxiter;
  let n := Z.to_nat maxiter in
  let Mu := replicate n (map (map (fun _ => 0)) mu) in
  let Kappa := replicate n (map (fun _ => 0) kappa) in
  let Bounds := replicate n (map (fun _ => [0; 0; 0]) kappa) in
  let Pi := replicate n (map (fun _ => 0) pi) in
  em_loop fuel fuel X k maxiter tol gamma
    (EmState mu kappa pi llh Mu Kappa Bounds Pi 0 (-1)).

(** The slicing at the end of [wmm_fit]. *)
Definition trim (return_steps : bool) (st : em_state) : outcome fit_result :=
  let c := st_converged st in
  let upto := Z.to_nat (c + 1) in
  let llh := take upto (st_llh st) in
  if return_steps then
    mret (Steps (take upto (st_Mu st)) (take upto (st_Kappa st)) (take upto (st_Pi st))
                llh (take upto (st_Bounds st)))
  else
    mu ← index (st_Mu st) (Z.to_nat c);
    kappa ← index (st_Kappa st) (Z.to_nat c);
    pi ← index (st_Pi st) (Z.to_nat c);
    bounds ← index (st_Bounds st) (Z.to_nat c);
    mret (Final mu kappa pi llh bounds).

(** [wmm_fit(X, k, maxiter, tol, verbose, seed, init, return_steps, gamma)];
    the result comes with the state of the generator the call leaves
    behind. *)
Definition wmm_fit (fuel : nat) (X : mat) (k maxiter : Z) (tol : R)
    (seed : option Z) (init : init_arg) (return_steps : bool) (gamma : R)
    (w : world) : outcome fit_result * world :=
  match np_random_seed seed w with
  | (Done _, w) =>
      let p := ncols X in
      match initialise init k p (rng w) with
      | (Done (mu, kappa, pi), g) =>
          (st ← run_em fuel X k maxiter tol gamma mu kappa pi;
           trim return_steps st,
           World g (entropy w))
      | (Raise e, g) => (Raise e, World g (entropy w))
      | (OutOfFuel, g) => (OutOfFuel, World g (entropy w))
      end
  | (Raise e, w) => (Raise e, w)
  | (OutOfFuel, w) => (OutOfFuel, w)
  end.

End EM.

(** ** The series summed by [kummer] *)

Module Series.

(** The factor by which pass [n] of the loop multiplies [term]
    ([n = 0] is the first-order term, formed before the loop). *)
Definition ratio (a b kappa : R) (n : nat) : R :=
  (a + INR n) * kappa / (b + INR n) / INR (S n).

(** The successive values of [term]; index 0 is the constant 1. *)
Fixpoint series_term (a b kappa : R) (n : nat) : R :=
  match n with
  | O => 1
  | S m => series_term a b kappa m * ratio a b kappa m
  end.

(** The successive values of [f]. *)
Fixpoint partial_sum (a b kappa : R) (n : nat) : R :=
  match n with
  | O => 1
  | S m => partial_sum a b kappa m + series_term a b kappa (S m)
  end.

(** The loop of [kummer] on entry to pass [i]. *)
Definition at_pass (fuel : nat) (a b kappa tol : R) (i : nat) : outcome (R * Z) :=
  Kummer.loop fuel (a + INR i) (b + INR i) kappa tol
    (series_term a b kappa (S i)) (partial_sum a b kappa (S i)) (Z.of_nat (S i)).

End Series.

(** ** Fuel

    [settles f o]: with enough fuel the computation [f] ends in [o], which
    is a return or an exception. *)
Definition settles {A : Type} (f : nat -> outcome A) (o : outcome A) : Prop :=
  terminated o /\ exists n, forall fuel, (n <= fuel)%nat -> f fuel = o.

(** ** Shapes inside the EM loop

    [well_shaped]: the current parameters have at least [k] rows or
    entries and each history array has [maxiter] slots. *)
Definition well_shaped (k maxiter : Z) (st : em_state) : Prop :=
  (0 <= k)%Z
  /\ (Z.to_nat k <= length (st_mu st))%nat
  /\ (Z.to_nat k <= length (st_kappa st))%nat
  /\ (Z.to_nat k <= length (st_pi st))%nat
  /\ Z.of_nat (length (st_Mu st)) = maxiter
  /\ Z.of_nat (length (st_Kappa st)) = maxiter
  /\ Z.of_nat (length (st_Bounds st)) = maxiter
  /\ Z.of_nat (length (st_Pi st)) = maxiter.

(** What holds of the variables when the loop is left: [st_iter] passes
    were made, at most [maxiter]; [st_converged] is the answer of
    [convergence] in the last pass, which is that pass or the one before. *)
Definition em_final (maxiter : Z) (tol : R) (st : em_state) : Prop :=
  (0 <= st_converged st < st_iter st)%Z
  /\ (st_iter st <= maxiter)%Z
  /\ st_converged st = convergence (st_llh st) (st_iter st - 1) maxiter tol
  /\ Z.of_nat (length (st_llh st)) = maxiter.

(** The tolerance test of [convergence] at iteration [iter]. *)
Definition tolerance_met (llh : vec) (iter : Z) (tol : R) : Prop :=
  (iter > 0)%Z /\ rel_change llh iter < tol.

(** [np.linalg.eig] returns at least one eigenvalue for a matrix that has
    a row. *)
Definition eig_nonempty (eig : mat -> vec * mat) : Prop :=
  forall S : mat, S <> [] -> fst (eig S) <> [].

(** The seeds [np.random.seed] accepts: [None], or an integer that fits
    32 bits. *)
Definition seed_ok (seed : option Z) : Prop :=
  match seed with
  | None => True
  | Some s => (0 <= s < 2 ^ 32)%Z
  end.

(** The initialisations [wmm_fit] can start from: an explicit one has
    exactly [k] rows of [p] entries in [mu] and [k] entries in [kappa] and
    in [pi], and the spiral is only asked for when [p = 3]. *)
Definition init_ok (init : init_arg) (k : Z) (p : nat) : Prop :=
  match init with
  | InitDict mu kappa pi =>
      length mu = Z.to_nat k /\ length kappa = Z.to_nat k
      /\ length pi = Z.to_nat k /\ Forall (fun row => length row = p) mu
  | InitStr s => lower s = "spiral"%string -> p = 3%nat
  | InitNone => True
  end.

Definition is_dict (init : init_arg) : Prop :=
  match init with
  | InitDict _ _ _ => True
  | _ => False
  end.

(** ** The golden spiral as the specification words it

    Polar angle [arccos(1 - 2(i+0.5)/k)] and azimuth [pi(1+sqrt 5)(i+0.5)],
    in Cartesian coordinates. *)
Definition spec_polar_angle (k : Z) (i : nat) : R :=
  acos (1 - 2 * (INR i + 0.5) / IZR k).

Definition azimuth (i : nat) : R := PI * (1 + sqrt 5) * (INR i + 0.5).

Definition cartesian (theta phi : R) : vec :=
  [cos theta * sin phi; sin theta * sin phi; cos phi].

Definition spec_direction (k : Z) (i : nat) : vec :=
  cartesian (azimuth i) (spec_polar_angle k i).

(** The polar angle the source computes. *)
Definition polar_angle (k : Z) (i : nat) : R :=
  acos (1 - (INR i + 0.5) / IZR k).

(** ** A concrete instance of the parameters, to run the definitions on
    examples *)

Module Sample.

(** A generator that counts: seeding with [s] starts the count at [s],
    each draw returns the count and advances it. *)
Definition seed_rng (s : Z) : nat := Z.to_nat s.
Definition normal (g : nat) : R * nat := (INR g + 1, S g).

(** [Gamma] on the arguments 1 and 2, where it is 1. *)
Definition Gamma (x : R) : R := 1.

(** The eigen-decomposition of a diagonal matrix: the diagonal, and the
    identity matrix. *)
Definition eig_diag (S : mat) : vec * mat :=
  (imap (fun i row => nth i row 0) S,
   imap (fun i _ => imap (fun j _ => if decide (i = j) then 1 else 0) S) S).

(** Two orthogonal observations in the plane, and responsibilities that
    give the first component 0.995 of the first point and 0.005 of the
    second. *)
Definition X2 : mat := [[1; 0]; [0; 1]].
Definition beta2 : mat := [[0.995; 0.005]; [0.005; 0.995]].

End Sample.

(** ** The density functions [pdf] and [wmm_pdf] *)

(** What [np.sum(..., axis=0)] returns in [wmm_pdf]: an array, or the
    scalar [0.0] when the list it sums is empty. *)
Inductive ndarray : Type :=
| Scalar (x : R)
| Array (v : vec).

Section Density.

Variable Gamma : R -> R.

(** [pdf(X, mu, kappa)]; [fuel] bounds the loop of [kummer]. *)
Definition pdf (fuel : nat) (X : mat) (mu : vec) (kappa : R) : outcome vec :=
  let p := ncols X in
  M ← Kummer.kummer fuel (1 / 2) (INR p / 2) kappa Kummer.default_tol;
  let cp := Gamma (INR p / 2) / (2 * Rpower PI (INR p / 2) * M) in
  mret (map (fun x => cp * exp (kappa * dot mu x ^ 2)) X).

(** One element of the list comprehension of [wmm_pdf]:
    [pi * pdf(X, mu, kappa)]. *)
Definition weighted_pdf (fuel : nat) (X : mat) (c : vec * R * R) : outcome vec :=
  let '(mu, kappa, pi) := c in
  d ← pdf fuel X mu kappa;
  mret (map (fun x => pi * x) d).

(** [np.sum(terms, axis=0)] for a list of arrays over the [N] points. *)
Definition sum_axis0 (N : nat) (terms : list vec) : ndarray :=
  match terms with
  | [] => Scalar 0
  | _ => Array (map (fun i => vsum (map (fun t => nth i t 0) terms)) (seq 0 N))
  end.

(** [wmm_pdf(X, Mu, Kappa, Pi)]; [zip] stops at the shortest of the three
    lists. *)
Definition wmm_pdf (fuel : nat) (X : mat) (Mu : mat) (Kappa Pi : vec) : outcome ndarray :=
  terms ← mapM (weighted_pdf fuel X) (zip (zip Mu Kappa) Pi);
  mret (sum_axis0 (length X) terms).

End Density.

(** ** Vocabulary for the statements below *)

(** The trace of a square array with [p] rows. *)
Definition trace (p : nat) (S : mat) : R :=
  vsum (map (fun a => nth a (nth a S []) 0) (seq 0 p)).

(** [M[a, b]] *)
Definition entry (S : mat) (a b : nat) : R := nth b (nth a S []) 0.

(** The mean over the rows of column [c]: [bounds.mean(axis=0)[c]]. *)
Definition column_mean (c : nat) (bounds : mat) : R :=
  vsum (column c bounds) / INR (length bounds).

(** A row of [bounds] whose three entries are in order. *)
Definition ordered_triple (row : vec) : Prop :=
  exists l b u, row = [l; b; u] /\ l <= b <= u.

(** The initialisations of [wmm_fit] that take nothing from the random
    generator: an explicit one, the spiral, and the default when [p = 3]. *)
Definition draws_nothing (init : init_arg) (p : nat) : Prop :=
  match init with
  | InitDict _ _ _ => True
  | InitStr s => lower s = "spiral"%string \/ (lower s <> "random"%string /\ p = 3%nat)
  | InitNone => p = 3%nat
  end.

(** * Properties *)

(** ** The series evaluator *)

Module KummerFacts.
Import Kummer Series.

Lemma loop_step (fuel : nat) (a b kappa tol term f : R) (j : Z) :
  Rabs term > tol ->
  loop (S fuel) a b kappa tol term f j =
  loop fuel (a + 1) (b + 1) kappa tol
       (term * ((a + 1) * kappa / (b + 1) / IZR (j + 1)))
       (f + term * ((a + 1) * kappa / (b + 1) / IZR (j + 1))) (j + 1)%Z.
Proof.
  intros H. simpl. destruct (decide (Rabs term > tol)); [reflexivity | contradiction].
Qed.

Lemma loop_stop (fuel : nat) (a b kappa tol term f : R) (j : Z) :
  Rabs term <= tol -> loop fuel a b kappa tol term f j = Done (f, j).
Proof.
  intros H. destruct fuel; simpl; destruct (decide (Rabs term > tol)); try reflexivity; lra.
Qed.

Lemma loop_out (a b kappa tol term f : R) (j : Z) :
  Rabs term > tol -> loop 0 a b kappa tol term f j = OutOfFuel.
Proof.
  intros H. simpl. destruct (decide (Rabs term > tol)); [reflexivity | contradiction].
Qed.

Lemma kummer_iter_at_pass fuel a b kappa tol :
  kummer_iter fuel a b kappa tol = at_pass fuel a b kappa tol 0.
Proof.
  unfold kummer_iter, at_pass. simpl. unfold ratio. simpl.
  replace (a + 0) with a by lra. replace (b + 0) with b by lra.
  replace (1 * (a * kappa / b / 1)) with (a * kappa / b)
    by (unfold Rdiv; rewrite Rinv_1; lra).
  reflexivity.
Qed.

Lemma at_pass_step fuel a b kappa tol i :
  Rabs (series_term a b kappa (S i)) > tol ->
  at_pass (S fuel) a b kappa tol i = at_pass fuel a b kappa tol (S i).
Proof.
  intros H. unfold at_pass. rewrite loop_step by assumption.
  replace (Z.of_nat (S i) + 1)%Z with (Z.of_nat (S (S i))) by lia.
  rewrite <- INR_IZR_INZ.
  replace (a + INR i + 1) with (a + INR (S i)) by (rewrite S_INR; lra).
  replace (b + INR i + 1) with (b + INR (S i)) by (rewrite S_INR; lra).
  reflexivity.
Qed.

(** If the term of index [i + 1 + n] is within the tolerance, the loop
    entered at pass [i] returns with any fuel of at least [n]. *)
Lemma at_pass_returns a b kappa tol n :
  forall i, Rabs (series_term a b kappa (S i + n)) <= tol ->
  exists v, forall fuel, (n <= fuel)%nat -> at_pass fuel a b kappa tol i = Done v.
Proof.
  induction n as [|n IH]; intros i Hn.
  - rewrite Nat.add_0_r in Hn. eexists. intros fuel _. unfold at_pass.
    apply loop_stop. exact Hn.
  - destruct (Rle_dec (Rabs (series_term a b kappa (S i))) tol) as [Hle | Hgt].
    + eexists. intros fuel _. unfold at_pass. apply loop_stop. exact Hle.
    + destruct (IH (S i)) as [v Hv].
      { replace (S (S i) + n)%nat with (S i + S n)%nat by lia. exact Hn. }
      exists v. intros fuel Hf. destruct fuel as [|fuel]; [lia|].
      rewrite at_pass_step by lra. apply Hv. lia.
Qed.

(** What a returned value is: the loop stops at the first index [n >= 1]
    whose term is within the tolerance, and the value is the partial sum
    up to and including that term. *)
Lemma at_pass_done a b kappa tol fuel :
  forall i f j, at_pass fuel a b kappa tol i = Done (f, j) ->
  exists n : nat, (S i <= n)%nat /\ j = Z.of_nat n /\ f = partial_sum a b kappa n
    /\ Rabs (series_term a b kappa n) <= tol
    /\ forall m, (S i <= m < n)%nat -> Rabs (series_term a b kappa m) > tol.
Proof.
  induction fuel as [|fuel IH]; intros i f j H.
  - destruct (Rle_dec (Rabs (series_term a b kappa (S i))) tol) as [Hle | Hgt].
    + unfold at_pass in H. rewrite loop_stop in H by exact Hle.
      injection H as <- <-. exists (S i). repeat split; try lia; lra.
    + unfold at_pass in H. rewrite loop_out in H by lra. discriminate.
  - destruct (Rle_dec (Rabs (series_term a b kappa (S i))) tol) as [Hle | Hgt].
    + unfold at_pass in H. rewrite loop_stop in H by exact Hle.
      injection H as <- <-. exists (S i). repeat split; try lia; lra.
    + rewrite at_pass_step in H by lra.
      destruct (IH _ _ _ H) as (n & Hn & Hj & Hf & Hstop & Hbefore).
      exists n. repeat split; try assumption; try lia.
      intros m Hm. destruct (decide (m = S i)) as [-> | Hne]; [lra|].
      apply Hbefore. lia.
Qed.

Lemma kummer_iter_done a b kappa tol fuel f j :
  kummer_iter fuel a b kappa tol = Done (f, j) ->
  exists n : nat, (1 <= n)%nat /\ j = Z.of_nat n /\ f = partial_sum a b kappa n
    /\ Rabs (series_term a b kappa n) <= tol
    /\ forall m, (1 <= m < n)%nat -> Rabs (series_term a b kappa m) > tol.
Proof. rewrite kummer_iter_at_pass. apply at_pass_done. Qed.

(** *** The terms tend to zero, so the loop ends *)

Lemma ratio_small (a b kappa : R) :
  exists M : nat, forall m, (M <= m)%nat -> Rabs (ratio a b kappa m) <= 1 / 2.
Proof.
  destruct (INR_unbounded (Rabs a + 2 * Rabs b + 4 * Rabs kappa)) as [M HM].
  exists M. intros m Hm.
  assert (HmM : INR M <= INR m) by (apply le_INR; exact Hm).
  pose proof (Rabs_pos a) as Ha. pose proof (Rabs_pos b) as Hb.
  pose proof (Rabs_pos kappa) as Hk.
  set (x := a + INR m). set (y := b + INR m). set (z := INR (S m)).
  assert (Hz : z = INR m + 1) by (unfold z; apply S_INR).
  assert (Hx : Rabs x <= Rabs a + INR m).
  { unfold x. eapply Rle_trans; [apply Rabs_triang|].
    rewrite (Rabs_right (INR m)); [lra|]. apply Rle_ge, pos_INR. }
  assert (Hy : INR m - Rabs b <= Rabs y).
  { unfold y. replace (b + INR m) with (INR m - (- b)) by lra.
    eapply Rle_trans; [|apply Rabs_triang_inv].
    rewrite Rabs_Ropp. rewrite (Rabs_right (INR m)); [lra|]. apply Rle_ge, pos_INR. }
  assert (Hypos : 0 < Rabs y) by lra.
  assert (Hzpos : 0 < z) by lra.
  assert (Hy0 : y <> 0) by (intros E; rewrite E, Rabs_R0 in Hypos; lra).
  unfold ratio. fold x y z.
  unfold Rdiv. rewrite !Rabs_mult. rewrite !Rabs_inv.
  rewrite (Rabs_right z) by lra.
  assert (Hxk : Rabs x * Rabs kappa <= Rabs y * z / 2).
  { assert (Rabs x <= 2 * Rabs y) by lra.
    assert (Rabs kappa <= z / 4) by lra.
    pose proof (Rabs_pos x).
    assert (Rabs x * Rabs kappa <= (2 * Rabs y) * (z / 4))
      by (apply Rmult_le_compat; lra).
    lra. }
  apply (Rmult_le_reg_r (Rabs y * z)); [nra|].
  replace (Rabs x * Rabs kappa * / Rabs y * / z * (Rabs y * z))
    with (Rabs x * Rabs kappa) by (field; lra).
  lra.
Qed.

Lemma series_term_decay (a b kappa : R) (M : nat) :
  (forall m, (M <= m)%nat -> Rabs (ratio a b kappa m) <= 1 / 2) ->
  forall d, Rabs (series_term a b kappa (M + d))
            <= Rabs (series_term a b kappa M) * (1 / 2) ^ d.
Proof.
  intros HM. induction d as [|d IH].
  - rewrite Nat.add_0_r. simpl. lra.
  - replace (M + S d)%nat with (S (M + d)) by lia. simpl.
    rewrite Rabs_mult.
    pose proof (HM (M + d)%nat ltac:(lia)) as Hr.
    pose proof (Rabs_pos (series_term a b kappa (M + d))).
    pose proof (Rabs_pos (ratio a b kappa (M + d))).
    assert (Rabs (series_term a b kappa (M + d)) * Rabs (ratio a b kappa (M + d))
            <= (Rabs (series_term a b kappa M) * (1 / 2) ^ d) * (1 / 2))
      by (apply Rmult_le_compat; lra).
    lra.
Qed.

Lemma series_term_small (a b kappa tol : R) :
  0 < tol -> exists n : nat, Rabs (series_term a b kappa (S n)) <= tol.
Proof.
  intros Htol.
  destruct (ratio_small a b kappa) as [M HM].
  set (T := Rabs (series_term a b kappa (S M))).
  assert (HT : 0 <= T) by apply Rabs_pos.
  destruct (pow_lt_1_zero (1 / 2)) with (y := tol / (T + 1)) as [N HN].
  { rewrite Rabs_right; lra. }
  { apply Rdiv_lt_0_compat; lra. }
  exists (M + N)%nat.
  replace (S (M + N)) with (S M + N)%nat by lia.
  eapply Rle_trans.
  { apply series_term_decay. intros m Hm. apply HM. lia. }
  fold T. specialize (HN N (Nat.le_refl N)).
  rewrite Rabs_right in HN by (apply Rle_ge, pow_le; lra).
  assert (Hp : 0 <= (1 / 2) ^ N) by (apply pow_le; lra).
  assert (T * (1 / 2) ^ N <= (T + 1) * (tol / (T + 1))).
  { apply Rmult_le_compat; lra. }
  replace ((T + 1) * (tol / (T + 1))) with tol in * by (field; lra).
  lra.
Qed.

(** For a positive tolerance [kummer] returns, whatever the parameters. *)
Lemma kummer_iter_returns (a b kappa tol : R) :
  0 < tol ->
  exists n v, forall fuel, (n <= fuel)%nat -> kummer_iter fuel a b kappa tol = Done v.
Proof.
  intros Htol. destruct (series_term_small a b kappa tol Htol) as [n Hn].
  destruct (at_pass_returns a b kappa tol n 0) as [v Hv]; [exact Hn|].
  exists n, v. intros fuel Hf. rewrite kummer_iter_at_pass. apply Hv, Hf.
Qed.

Lemma kummer_settles (a b kappa tol : R) :
  0 < tol -> exists v, settles (fun fuel => kummer fuel a b kappa tol) (Done v).
Proof.
  intros Htol. destruct (kummer_iter_returns a b kappa tol Htol) as (n & [f j] & Hn).
  exists f. split; [exact I|]. exists n. intros fuel Hf.
  unfold kummer. rewrite Hn by exact Hf. reflexivity.
Qed.

Lemma default_tol_pos : 0 < default_tol.
Proof. unfold default_tol. lra. Qed.

(** C7. For every pair of shape parameters [a], [b] with [b] not zero and
    every positive tolerance, [kummer] called with [kappa = 0] returns
    exactly 1 (the loop body is never entered, so any fuel will do). *)
Theorem kummer_kappa_zero (a b tol : R) (fuel : nat) :
  b <> 0 -> 0 < tol -> kummer fuel a b 0 tol = Done 1.
Proof.
  intros Hb Htol. unfold kummer, kummer_iter.
  replace (a * 0 / b) with 0 by (field; assumption).
  rewrite loop_stop by (rewrite Rabs_R0; lra).
  simpl. f_equal. lra.
Qed.

Lemma kummer_kappa_zero_witness :
  (3 / 2 <> 0) /\ 0 < default_tol /\ kummer 0 (1 / 2) (3 / 2) 0 default_tol = Done 1.
Proof.
  assert (Hb : 3 / 2 <> 0) by lra.
  refine (conj Hb (conj default_tol_pos _)).
  exact (kummer_kappa_zero (1 / 2) (3 / 2) default_tol 0 Hb default_tol_pos).
Defined.

(** C10. The first-order term [a*kappa/b] is added to the constant 1
    before the tolerance is looked at: for [kappa <> 0] (and [b <> 0])
    with [|a*kappa/b| <= tol] the result is [1 + a*kappa/b], after one
    term ([j = 1]), and this differs from 1 as soon as [a] is not zero.
    The stopping test only decides whether further terms are added. *)
Theorem kummer_first_order_term (a b kappa tol : R) (fuel : nat) :
  b <> 0 -> kappa <> 0 -> Rabs (a * kappa / b) <= tol ->
  kummer fuel a b kappa tol = Done (1 + a * kappa / b)
  /\ kummer_iter fuel a b kappa tol = Done (1 + a * kappa / b, 1%Z)
  /\ (a <> 0 -> 1 + a * kappa / b <> 1).
Proof.
  intros Hb Hk Hterm.
  assert (Hiter : kummer_iter fuel a b kappa tol = Done (1 + a * kappa / b, 1%Z)).
  { unfold kummer_iter. apply loop_stop. exact Hterm. }
  split; [|split].
  - unfold kummer. rewrite Hiter. reflexivity.
  - exact Hiter.
  - intros Ha E.
    assert (Hz : a * kappa / b = 0) by lra.
    unfold Rdiv in Hz.
    apply Rmult_integral in Hz as [Hz | Hz].
    + apply Rmult_integral in Hz as [Hz | Hz]; contradiction.
    + apply Rinv_neq_0_compat in Hb. contradiction.
Qed.

Lemma kummer_first_order_term_witness :
  kummer 0 (1 / 2) (3 / 2) (3 / 10) (1 / 10) = Done (1 + 1 / 2 * (3 / 10) / (3 / 2)).
Proof.
  refine (proj1 (kummer_first_order_term (1 / 2) (3 / 2) (3 / 10) (1 / 10) 0 _ _ _)).
  - lra.
  - lra.
  - replace (1 / 2 * (3 / 10) / (3 / 2)) with (1 / 10) by lra.
    rewrite Rabs_right; lra.
Defined.

End KummerFacts.

(** ** The bound estimator *)

Module BoundFacts.

Section Ordering.

Variables a c r : R.
Hypothesis Hr : 0 < r < 1.
Hypothesis Hac : 0 < a < c.

Let t := r / a.
Let u := (1 - r) / (c - a).
Let s := sqrt (1 + 4 * (c + 1) * r * (1 - r) / (a * (c - a))).
Let K := (r * c - a) / (r * (1 - r)).

Lemma t_pos : 0 < t.
Proof using Hr Hac. apply Rdiv_lt_0_compat; lra. Qed.

Lemma u_pos : 0 < u.
Proof using Hr Hac. apply Rdiv_lt_0_compat; lra. Qed.

Lemma s_sq : s * s = 1 + 4 * (c + 1) * t * u.
Proof using Hr Hac.
  unfold s. rewrite sqrt_sqrt.
  - unfold t, u. field; split; lra.
  - assert (0 < 4 * (c + 1) * r * (1 - r) / (a * (c - a))); [|lra].
    assert (0 < r * (1 - r)) by nra.
    assert (0 < (c + 1) * (r * (1 - r))) by (apply Rmult_lt_0_compat; lra).
    apply Rdiv_lt_0_compat; nra.
Qed.

(** The three estimators share the factor [K]; they differ by a second
    factor, which the next two identities compare. *)
Lemma common_factor :
  lower_bound a c r = K * (1 + u) /\ bound a c r = K * ((1 + s) / 2)
  /\ upper_bound a c r = K * (1 + t).
Proof using Hr Hac.
  unfold lower_bound, bound, upper_bound, K. fold s. fold t. fold u.
  repeat split; try reflexivity. field; lra.
Qed.

Lemma gap_upper : 1 + t - (c + 1) * u = (r * c - a) * ((1 + a) / (a * (c - a))).
Proof using Hr Hac. unfold t, u. field; split; lra. Qed.

Lemma gap_lower : (c + 1) * t - 1 - u = (r * c - a) * ((c - a + 1) / (a * (c - a))).
Proof using Hr Hac. unfold t, u. field; split; lra. Qed.

Lemma root_between_pos : a <= r * c -> 1 + 2 * u <= s <= 1 + 2 * t.
Proof using Hr Hac.
  intros HD.
  pose proof t_pos. pose proof u_pos. pose proof s_sq as Hs.
  assert (0 <= s) by apply sqrt_pos.
  assert (Hu : 0 <= 1 + t - (c + 1) * u).
  { rewrite gap_upper. apply Rmult_le_pos; [lra|]. apply Rlt_le, Rdiv_lt_0_compat; nra. }
  assert (Hl : 0 <= (c + 1) * t - 1 - u).
  { rewrite gap_lower. apply Rmult_le_pos; [lra|]. apply Rlt_le, Rdiv_lt_0_compat; nra. }
  split.
  - apply Rnot_lt_le. intros Hlt.
    assert (s * s < (1 + 2 * u) * (1 + 2 * u)) by nra.
    assert (0 <= 4 * u * ((c + 1) * t - 1 - u)) by (apply Rmult_le_pos; lra).
    nra.
  - apply Rnot_lt_le. intros Hlt.
    assert ((1 + 2 * t) * (1 + 2 * t) < s * s) by nra.
    assert (0 <= 4 * t * (1 + t - (c + 1) * u)) by (apply Rmult_le_pos; lra).
    nra.
Qed.

Lemma root_between_neg : r * c <= a -> 1 + 2 * t <= s <= 1 + 2 * u.
Proof using Hr Hac.
  intros HD.
  pose proof t_pos. pose proof u_pos. pose proof s_sq as Hs.
  assert (0 <= s) by apply sqrt_pos.
  assert (Hu : 0 <= - (1 + t - (c + 1) * u)).
  { rewrite gap_upper. rewrite Ropp_mult_distr_l. apply Rmult_le_pos; [lra|].
    apply Rlt_le, Rdiv_lt_0_compat; nra. }
  assert (Hl : 0 <= - ((c + 1) * t - 1 - u)).
  { rewrite gap_lower. rewrite Ropp_mult_distr_l. apply Rmult_le_pos; [lra|].
    apply Rlt_le, Rdiv_lt_0_compat; nra. }
  split.
  - apply Rnot_lt_le. intros Hlt.
    assert (s * s < (1 + 2 * t) * (1 + 2 * t)) by nra.
    assert (0 <= 4 * t * - (1 + t - (c + 1) * u)) by (apply Rmult_le_pos; lra).
    nra.
  - apply Rnot_lt_le. intros Hlt.
    assert ((1 + 2 * u) * (1 + 2 * u) < s * s) by nra.
    assert (0 <= 4 * u * - ((c + 1) * t - 1 - u)) by (apply Rmult_le_pos; lra).
    nra.
Qed.

End Ordering.

(** C3. For all real [r] with [0 < r < 0.99] and all shape parameters with
    [c > a > 0], [lower_bound a c r <= bound a c r <= upper_bound a c r].
    When [r*c < a] the common factor is negative and the second factors
    are ordered the other way round, so the order of the three estimators
    is the same on both sides of [r = a/c]. *)
Theorem bounds_ordered (a c r : R) :
  0 < r < 0.99 -> c > a -> a > 0 ->
  lower_bound a c r <= bound a c r <= upper_bound a c r.
Proof.
  intros Hr Hc Ha.
  assert (Hr1 : 0 < r < 1) by lra.
  assert (Hac : 0 < a < c) by lra.
  destruct (common_factor a c r Hr1 Hac) as (-> & -> & ->).
  assert (Hn : 0 < / (r * (1 - r))) by (apply Rinv_0_lt_compat; nra).
  destruct (Rle_dec a (r * c)) as [HD | HD].
  - destruct (root_between_pos a c r Hr1 Hac HD) as [H1 H2].
    assert (0 <= (r * c - a) / (r * (1 - r)))
      by (unfold Rdiv; apply Rmult_le_pos; lra).
    split; apply Rmult_le_compat_l; lra.
  - assert (HD' : r * c <= a) by lra.
    destruct (root_between_neg a c r Hr1 Hac HD') as [H1 H2].
    assert ((r * c - a) / (r * (1 - r)) <= 0) by (unfold Rdiv; nra).
    split; apply Rmult_le_compat_neg_l; lra.
Qed.

Lemma bounds_ordered_witness :
  lower_bound (1 / 2) (3 / 2) (1 / 2) <= bound (1 / 2) (3 / 2) (1 / 2)
  <= upper_bound (1 / 2) (3 / 2) (1 / 2).
Proof. apply bounds_ordered; lra. Defined.

End BoundFacts.

(** ** The convergence test *)

Module ConvergenceFacts.

Lemma at_index_1 (x y : R) (l : list R) : at_index (x :: y :: l) 1 = y.
Proof. reflexivity. Qed.

Lemma improved llh iter maxiter tol :
  (iter > 0)%Z -> rel_change llh iter < tol ->
  at_index llh iter - at_index llh (iter - 1) > 0 ->
  convergence llh iter maxiter tol = iter.
Proof.
  intros Hi Hrel Hpos. unfold convergence.
  destruct (decide _) as [_ | Hn]; [|tauto].
  destruct (decide _); [reflexivity | contradiction].
Qed.

Lemma rolled_back llh iter maxiter tol :
  (iter > 0)%Z -> rel_change llh iter < tol ->
  at_index llh iter - at_index llh (iter - 1) <= 0 ->
  convergence llh iter maxiter tol = (iter - 1)%Z.
Proof.
  intros Hi Hrel Hpos. unfold convergence.
  destruct (decide _) as [_ | Hn]; [|tauto].
  destruct (decide _); [lra | reflexivity].
Qed.

Lemma at_cap llh iter maxiter tol :
  ~ ((iter > 0)%Z /\ rel_change llh iter < tol) -> (iter >= maxiter - 1)%Z ->
  convergence llh iter maxiter tol = iter.
Proof.
  intros Hn Hcap. unfold convergence.
  destruct (decide _) as [H | _]; [contradiction|].
  destruct (decide _); [reflexivity | contradiction].
Qed.

Lemma continue llh iter maxiter tol :
  ~ ((iter > 0)%Z /\ rel_change llh iter < tol) -> (iter < maxiter - 1)%Z ->
  convergence llh iter maxiter tol = (-1)%Z.
Proof.
  intros Hn Hcap. unfold convergence.
  destruct (decide _) as [H | _]; [contradiction|].
  destruct (decide _); [lia | reflexivity].
Qed.

(** The result is [iter], [iter - 1] or [-1]; it is never below [-1], and
    it is [-1] only before the last allowed iteration. *)
Lemma range llh iter maxiter tol :
  (0 <= iter)%Z ->
  (-1 <= convergence llh iter maxiter tol <= iter)%Z
  /\ ((convergence llh iter maxiter tol < 0)%Z -> (iter < maxiter - 1)%Z).
Proof.
  intros Hi. unfold convergence.
  destruct (decide _) as [[H _] | _].
  - destruct (decide _); lia.
  - destruct (decide _); lia.
Qed.

Lemma at_index_2 (x y z : R) (l : list R) : at_index (x :: y :: z :: l) 2 = z.
Proof. reflexivity. Qed.

(** C1 as worded fails when the log-likelihood does not change: with
    [llh = [-2, -1, -1]] at iteration 2 the relative change is 0, below
    the tolerance and not negative, and [convergence] answers 1, the
    previous iteration. *)
Lemma zero_change_is_rolled_back :
  let llh := [-2; -1; -1] in
  let tol := 0.0001 in
  ((2 > 0)%Z /\ rel_change llh 2 < tol
   /\ at_index llh 2 - at_index llh (2 - 1) >= 0)
  /\ convergence llh 2 3 tol = 1%Z
  /\ convergence llh 2 3 tol <> 2%Z.
Proof.
  intros llh tol.
  assert (Hchange : at_index llh 2 - at_index llh (2 - 1) = 0).
  { unfold llh. change (2 - 1)%Z with 1%Z. rewrite at_index_1, at_index_2. lra. }
  assert (Hrel : rel_change llh 2 < tol).
  { unfold rel_change. rewrite Hchange. unfold Rdiv, tol. rewrite Rmult_0_l. lra. }
  assert (Hconv : convergence llh 2 3 tol = 1%Z).
  { change 1%Z with (2 - 1)%Z. apply rolled_back; [lia | exact Hrel | lra]. }
  repeat split; try assumption; try lia; lra.
Qed.

(** C1, amended. At an iteration [iter > 0] whose relative change is below
    the tolerance (the previous log-likelihood not being zero),
    [convergence] answers [iter] when the change is strictly positive and
    [iter - 1] when the change is zero or negative. *)
Theorem below_tolerance llh iter maxiter tol :
  (iter > 0)%Z -> at_index llh (iter - 1) <> 0 -> rel_change llh iter < tol ->
  (at_index llh iter - at_index llh (iter - 1) > 0 ->
   convergence llh iter maxiter tol = iter)
  /\ (at_index llh iter - at_index llh (iter - 1) <= 0 ->
      convergence llh iter maxiter tol = (iter - 1)%Z).
Proof.
  intros Hi _ Hrel. split; intros Hc.
  - apply improved; assumption.
  - apply rolled_back; assumption.
Qed.

Lemma below_tolerance_witness :
  convergence [-2; -1; -1] 2 3 0.0001 = (2 - 1)%Z.
Proof.
  assert (Hchange : at_index [-2; -1; -1] 2 - at_index [-2; -1; -1] (2 - 1) = 0).
  { change (2 - 1)%Z with 1%Z. rewrite at_index_1, at_index_2. lra. }
  refine (proj2 (below_tolerance [-2; -1; -1] 2 3 0.0001 _ _ _) _).
  - lia.
  - change (2 - 1)%Z with 1%Z. rewrite at_index_1. lra.
  - unfold rel_change. rewrite Hchange. unfold Rdiv. rewrite Rmult_0_l. lra.
  - rewrite Hchange. lra.
Defined.

End ConvergenceFacts.

(** ** Arrays: lookups and sums *)

Lemma lookup_map {A B : Type} (f : A -> B) (l : list A) (i : nat) :
  map f l !! i = f <$> (l !! i).
Proof. apply (list_lookup_fmap f l i). Qed.

Lemma full_nonneg (x : R) (k : Z) :
  (0 <= k)%Z -> full x k = Done (replicate (Z.to_nat k) x).
Proof. intros H. unfold full. destruct (decide (k < 0)%Z); [lia | reflexivity]. Qed.

Lemma full_negative (x : R) (k : Z) : (k < 0)%Z -> full x k = Raise ValueError.
Proof. intros H. unfold full. destruct (decide (k < 0)%Z); [reflexivity | lia]. Qed.

(** ** The golden spiral *)

Module SpiralFacts.

Lemma Rpower_5_half : Rpower 5 0.5 = sqrt 5.
Proof. replace 0.5 with (/ 2) by lra. apply Rpower_sqrt. lra. Qed.

Lemma lookup_direction (k : Z) :
  (1 <= k)%Z ->
  exists mu,
    golden_spiral_init k
    = Done (mu, replicate (Z.to_nat k) 1, map (fun x => x / IZR k) (replicate (Z.to_nat k) 1))
    /\ length mu = Z.to_nat k
    /\ forall i, (i < Z.to_nat k)%nat ->
         mu !! i = Some (cartesian (azimuth i) (polar_angle k i)).
Proof.
  intros Hk. unfold golden_spiral_init, ones. cbv zeta.
  rewrite full_nonneg by lia. simpl.
  eexists. split; [reflexivity|]. split.
  - rewrite length_zip_with, !length_map, length_seq. lia.
  - intros i Hi. rewrite lookup_zip_with, !lookup_map.
    rewrite lookup_seq_lt by exact Hi. simpl.
    unfold cartesian, azimuth, polar_angle. rewrite Rpower_5_half.
    assert (Hk0 : IZR k <> 0) by (apply not_0_IZR; lia).
    replace (1 - 2 * (INR i + 0.5) / (2 * IZR k)) with (1 - (INR i + 0.5) / IZR k)
      by (field; exact Hk0).
    reflexivity.
Qed.

Lemma polar_argument_range (k : Z) (i : nat) :
  (i < Z.to_nat k)%nat -> 0 < 1 - (INR i + 0.5) / IZR k < 1.
Proof.
  intros Hi.
  assert (Hle : INR i + 1 <= IZR k).
  { rewrite <- S_INR. rewrite INR_IZR_INZ. apply IZR_le. lia. }
  pose proof (pos_INR i) as Hpos.
  assert (Hkpos : 0 < IZR k) by lra.
  assert (Hq : 0 < (INR i + 0.5) / IZR k < 1).
  { split.
    - apply Rdiv_lt_0_compat; lra.
    - apply (Rmult_lt_reg_r (IZR k)); [exact Hkpos|].
      unfold Rdiv. rewrite Rmult_assoc, Rinv_l by lra. lra. }
  lra.
Qed.

Lemma acos_upper_half (x : R) : 0 < x < 1 -> 0 < acos x < PI / 2.
Proof.
  intros Hx. destruct (acos_bound_lt x ltac:(lra)) as [H0 HPI]. split; [exact H0|].
  apply Rnot_le_lt. intros Hge.
  assert (cos (acos x) <= 0) by (apply cos_le_0; lra).
  rewrite cos_acos in H by lra. lra.
Qed.

(** C2 as worded fails: for [k = 2] the second direction returned by
    [golden_spiral_init] has third coordinate 1/4 (polar angle
    [arccos(1/4)], upper hemisphere), where the formula of the claim,
    [arccos(1 - 2(i+0.5)/k)], gives the third coordinate -1/2. *)
Lemma second_of_two_is_not_spec_direction :
  exists mu kappa pi d,
    golden_spiral_init 2 = Done (mu, kappa, pi)
    /\ mu !! 1%nat = Some d
    /\ nth 2 d 0 = 1 / 4
    /\ nth 2 (spec_direction 2 1) 0 = - (1 / 2)
    /\ d <> spec_direction 2 1.
Proof.
  destruct (lookup_direction 2 ltac:(lia)) as (mu & Hinit & _ & Hlook).
  assert (Hd : nth 2 (cartesian (azimuth 1) (polar_angle 2 1)) 0 = 1 / 4).
  { simpl. unfold polar_angle. simpl INR. rewrite cos_acos; lra. }
  assert (Hs : nth 2 (spec_direction 2 1) 0 = - (1 / 2)).
  { simpl. unfold spec_polar_angle. simpl INR. rewrite cos_acos; lra. }
  exists mu. do 2 eexists. exists (cartesian (azimuth 1) (polar_angle 2 1)).
  split; [exact Hinit|]. split; [apply Hlook; simpl; lia|].
  split; [exact Hd|]. split; [exact Hs|].
  intros E. rewrite E, Hs in Hd. lra.
Qed.

(** C2, amended. For every [k >= 1], [golden_spiral_init] places the i-th
    mean direction ([i = 0..k-1]) at polar angle [arccos(1 - (i+0.5)/k)]
    and azimuth [pi(1+sqrt 5)(i+0.5)], in Cartesian coordinates; the
    polar angles lie in (0, pi/2), so every direction has a positive third
    coordinate [1 - (i+0.5)/k]: the directions cover one hemisphere. *)
Theorem directions_on_upper_hemisphere (k : Z) :
  (1 <= k)%Z ->
  exists mu kappa pi,
    golden_spiral_init k = Done (mu, kappa, pi)
    /\ length mu = Z.to_nat k
    /\ forall i, (i < Z.to_nat k)%nat ->
         mu !! i = Some (cartesian (azimuth i) (polar_angle k i))
         /\ 0 < polar_angle k i < PI / 2
         /\ nth 2 (cartesian (azimuth i) (polar_angle k i)) 0 = 1 - (INR i + 0.5) / IZR k
         /\ 0 < 1 - (INR i + 0.5) / IZR k.
Proof.
  intros Hk. destruct (lookup_direction k Hk) as (mu & Hinit & Hlen & Hlook).
  exists mu. do 2 eexists. split; [exact Hinit|]. split; [exact Hlen|].
  intros i Hi. pose proof (polar_argument_range k i Hi) as Hrange.
  split; [apply Hlook, Hi|]. split; [apply acos_upper_half, Hrange|].
  split; [|lra]. simpl. unfold polar_angle. apply cos_acos. lra.
Qed.

Lemma directions_on_upper_hemisphere_witness :
  exists mu kappa pi,
    golden_spiral_init 3 = Done (mu, kappa, pi) /\ length mu = Z.to_nat 3.
Proof.
  destruct (directions_on_upper_hemisphere 3 ltac:(lia)) as (mu & kappa & pi & H & Hlen & _).
  exists mu, kappa, pi. split; assumption.
Defined.

End SpiralFacts.

(** ** Outcomes *)

Lemma terminated_bind {A B : Type} (m : outcome A) (f : A -> outcome B) :
  terminated m -> (forall a, terminated (f a)) -> terminated (m ≫= f).
Proof. destruct m; simpl; auto. Qed.

Lemma returned_done {A : Type} (o : outcome A) : returned o -> exists a, o = Done a.
Proof. destruct o; simpl; intros H; try contradiction. eexists; reflexivity. Qed.

Lemma index_terminated {A : Type} (l : list A) (j : nat) : terminated (index l j).
Proof. unfold index. destruct (l !! j); exact I. Qed.

Lemma index_returns {A : Type} (l : list A) (j : nat) :
  (j < length l)%nat -> exists x, index l j = Done x.
Proof.
  intros H. unfold index. destruct (lookup_lt_is_Some_2 l j H) as [x ->].
  exists x. reflexivity.
Qed.

Lemma store_terminated {A : Type} (l : list A) (i : Z) (x : A) : terminated (store l i x).
Proof. unfold store. destruct (decide _); exact I. Qed.

Lemma store_returns {A : Type} (l : list A) (i : Z) (x : A) :
  (0 <= i < Z.of_nat (length l))%Z -> store l i x = Done (<[Z.to_nat i := x]> l).
Proof. intros H. unfold store. destruct (decide _); [reflexivity | contradiction]. Qed.

Lemma store_done {A : Type} (l l' : list A) (i : Z) (x : A) :
  store l i x = Done l' -> (0 <= i < Z.of_nat (length l))%Z /\ length l' = length l.
Proof.
  unfold store. destruct (decide _) as [H | H]; [|discriminate].
  intros E. injection E as <-. split; [exact H | apply length_insert].
Qed.

(** Case analysis on the first computation of a sequence. *)
Ltac bind_inv H :=
  match type of H with
  | (?m ≫= _) = Done _ =>
      let E := fresh "E" in
      destruct m eqn:E; simpl in H; [| discriminate H | discriminate H]
  end.

Section EMFacts.

Variable Gamma : R -> R.
Variable eig : list (list R) -> list R * list (list R).

(** *** The expectation step ends *)

Lemma e_step_column_settles (X mu : list (list R)) (kappa pi : list R) (p j : nat) :
  exists o, settles (fun fuel => e_step_column Gamma fuel X mu kappa pi p j) o
    /\ ((j < length kappa)%nat -> (j < length pi)%nat -> (j < length mu)%nat -> returned o).
Proof.
  unfold e_step_column.
  destruct (index kappa j) as [kappa_j | e |] eqn:Ek.
  - destruct (KummerFacts.kummer_settles (1 / 2) (INR p / 2) kappa_j Kummer.default_tol
                KummerFacts.default_tol_pos) as (M & _ & n & Hn).
    eexists. split; [split|].
    + shelve.
    + exists n. intros fuel Hf. simpl. rewrite Hn by exact Hf. simpl. reflexivity.
    + intros _ Hpi Hmu.
      destruct (index_returns pi j Hpi) as [pi_j ->].
      destruct (index_returns mu j Hmu) as [mu_j ->]. exact I.
    Unshelve.
    apply terminated_bind; [apply index_terminated|]. intros pi_j.
    apply terminated_bind; [apply index_terminated|]. intros mu_j. exact I.
  - exists (Raise e). split; [split; [exact I|]|].
    + exists 0%nat. intros fuel _. reflexivity.
    + intros Hk. destruct (index_returns kappa j Hk) as [x Hx]. congruence.
  - pose proof (index_terminated kappa j) as H. rewrite Ek in H. contradiction.
Qed.

Lemma e_step_columns_settle (X mu : list (list R)) (kappa pi : list R) (p : nat)
    (js : list nat) :
  exists o, settles (fun fuel => mapM (e_step_column Gamma fuel X mu kappa pi p) js) o
    /\ ((forall j, In j js -> (j < length kappa)%nat /\ (j < length pi)%nat
                              /\ (j < length mu)%nat) -> returned o).
Proof.
  induction js as [|j js IH].
  - exists (Done []). split; [split; [exact I|]|].
    + exists 0%nat. intros fuel _. reflexivity.
    + intros _. exact I.
  - destruct (e_step_column_settles X mu kappa pi p j) as (o1 & [T1 [n1 H1]] & R1).
    destruct IH as (o2 & [T2 [n2 H2]] & R2).
    exists (y ← o1; ks ← o2; mret (y :: ks)). split; [split|].
    + apply terminated_bind; [exact T1|]. intros y.
      apply terminated_bind; [exact T2|]. intros ks. exact I.
    + exists (Nat.max n1 n2). intros fuel Hf. simpl.
      rewrite H1, H2 by lia. reflexivity.
    + intros Hjs.
      destruct (Hjs j (or_introl eq_refl)) as (Hk & Hpi & Hmu).
      destruct (returned_done _ (R1 Hk Hpi Hmu)) as [y ->].
      destruct (returned_done _ (R2 (fun j' Hj' => Hjs j' (or_intror Hj')))) as [ks ->].
      exact I.
Qed.

Lemma e_step_settles (X mu : list (list R)) (kappa pi : list R) (k : Z) (p : nat) :
  exists o, settles (fun fuel => e_step Gamma fuel X mu kappa pi k p) o
    /\ ((0 <= k)%Z -> (Z.to_nat k <= length kappa)%nat -> (Z.to_nat k <= length pi)%nat
        -> (Z.to_nat k <= length mu)%nat -> returned o).
Proof.
  unfold e_step. destruct (decide (k < 0)%Z) as [Hneg | Hk].
  - exists (Raise ValueError). split; [split; [exact I|]|].
    + exists 0%nat. intros fuel _. reflexivity.
    + intros H. lia.
  - destruct (e_step_columns_settle X mu kappa pi p (seq 0 (Z.to_nat k)))
      as (o & [T [n Hn]] & Rt).
    eexists. split; [split|].
    + shelve.
    + exists n. intros fuel Hf. rewrite Hn by exact Hf. reflexivity.
    + intros _ Hkappa Hpi Hmu.
      destruct (returned_done _ (Rt ltac:(intros j Hj; apply in_seq in Hj; lia))) as [cols ->].
      exact I.
    Unshelve.
    apply terminated_bind; [exact T|]. intros cols. exact I.
Qed.

(** *** The maximisation step *)

Lemma argmax_terminated (w : list R) : terminated (argmax w).
Proof. destruct w; exact I. Qed.

Lemma component_axis_terminated X beta p j : terminated (component_axis eig X beta p j).
Proof.
  unfold component_axis. destruct (eig _) as [w v].
  apply terminated_bind; [apply argmax_terminated|]. intros idx. exact I.
Qed.

Lemma component_axis_done X beta p j mu_j r :
  component_axis eig X beta p j = Done (mu_j, r) -> exists r0, r = clamp r0.
Proof.
  unfold component_axis. destruct (eig _) as [w v].
  destruct (argmax w) as [idx | e |]; simpl; try discriminate.
  intros H. injection H as _ <-. eexists. reflexivity.
Qed.

Lemma scatter_nonempty X beta p j : (1 <= p)%nat -> scatter X beta p j <> [].
Proof.
  intros Hp. unfold scatter. destruct p as [|p]; [lia|]. simpl. discriminate.
Qed.

Lemma component_axis_returns X beta p j :
  eig_nonempty eig -> (1 <= p)%nat -> returned (component_axis eig X beta p j).
Proof.
  intros Heig Hp. unfold component_axis.
  pose proof (Heig _ (scatter_nonempty X beta p j Hp)) as Hw.
  destruct (eig _) as [w v]. simpl in Hw.
  destruct w as [|x w]; [contradiction|]. exact I.
Qed.

Lemma m_step_loop_terminated X beta p js :
  forall mu bounds, terminated (m_step_loop eig X beta p js mu bounds).
Proof.
  induction js as [|j js IH]; intros mu bounds; simpl; [exact I|].
  apply terminated_bind; [apply component_axis_terminated|]. intros [mu_j r].
  apply terminated_bind; [apply store_terminated|]. intros mu'.
  apply terminated_bind; [apply store_terminated|]. intros bounds'. apply IH.
Qed.

Lemma m_step_loop_done X beta p js :
  forall mu bounds mu' bounds',
    m_step_loop eig X beta p js mu bounds = Done (mu', bounds') ->
    length mu' = length mu /\ length bounds' = length bounds.
Proof.
  induction js as [|j js IH]; intros mu bounds mu' bounds' H; simpl in H.
  - injection H as <- <-. split; reflexivity.
  - bind_inv H. destruct a as [mu_j r]. bind_inv H. bind_inv H.
    apply store_done in E0 as [_ E0]. apply store_done in E1 as [_ E1].
    destruct (IH _ _ _ _ H) as [H1 H2]. split; congruence.
Qed.

Lemma m_step_loop_returns X beta p js :
  eig_nonempty eig -> (1 <= p)%nat ->
  forall mu bounds,
    (forall j, In j js -> (j < length mu)%nat /\ (j < length bounds)%nat) ->
    returned (m_step_loop eig X beta p js mu bounds).
Proof.
  intros Heig Hp. induction js as [|j js IH]; intros mu bounds Hjs; simpl; [exact I|].
  destruct (returned_done _ (component_axis_returns X beta p j Heig Hp)) as [[mu_j r] ->].
  destruct (Hjs j (or_introl eq_refl)) as [Hmu Hb]. simpl.
  rewrite !store_returns by lia. simpl. apply IH.
  intros j' Hj'. rewrite !length_insert. apply Hjs. right. exact Hj'.
Qed.

Lemma m_step_terminated X mu beta k N p gamma :
  terminated (m_step eig X mu beta k N p gamma).
Proof.
  unfold m_step. destruct (decide _); [exact I|].
  apply terminated_bind; [apply m_step_loop_terminated|]. intros [mu' bounds']. exact I.
Qed.

Lemma regularize_length gamma bounds : length (regularize gamma bounds) = length bounds.
Proof. unfold regularize. apply length_map. Qed.

Lemma m_step_done X mu beta k N p gamma mu' kappa' pi' bounds' :
  m_step eig X mu beta k N p gamma = Done (mu', kappa', pi', bounds') ->
  (0 <= k)%Z /\ pi' = mixing_weights beta k N
  /\ length mu' = length mu /\ length kappa' = Z.to_nat k /\ length pi' = Z.to_nat k.
Proof.
  unfold m_step. destruct (decide (k < 0)%Z); [discriminate|]. intros H.
  bind_inv H. destruct a as [mu1 bounds1].
  apply m_step_loop_done in E as [Hmu Hb]. rewrite length_replicate in Hb.
  injection H as <- <- <- <-.
  repeat split; try lia; try assumption.
  - unfold column. rewrite length_map, regularize_length. exact Hb.
  - unfold mixing_weights. rewrite length_map, length_seq. reflexivity.
Qed.

Lemma m_step_returns X mu beta k N p gamma :
  (0 <= k)%Z -> (Z.to_nat k <= length mu)%nat ->
  k = 0%Z \/ (eig_nonempty eig /\ (1 <= p)%nat) ->
  returned (m_step eig X mu beta k N p gamma).
Proof.
  intros Hk Hmu Heig. unfold m_step. destruct (decide (k < 0)%Z); [lia|].
  assert (Hloop : returned (m_step_loop eig X beta p (seq 0 (Z.to_nat k)) mu
                              (replicate (Z.to_nat k) [0; 0; 0]))).
  { destruct Heig as [-> | [Heig Hp]]; [exact I|].
    apply m_step_loop_returns; try assumption.
    intros j Hj. apply in_seq in Hj. rewrite length_replicate. lia. }
  destruct (returned_done _ Hloop) as [[mu' bounds'] ->]. exact I.
Qed.


(** *** One pass of the EM loop *)

Lemma em_pass_done kf X k maxiter tol gamma st st1 :
  em_pass Gamma eig kf X k maxiter tol gamma st = Done st1 ->
  st_iter st1 = (st_iter st + 1)%Z
  /\ st_converged st1 = convergence (st_llh st1) (st_iter st) maxiter tol
  /\ (0 <= st_iter st < Z.of_nat (length (st_llh st)))%Z
  /\ length (st_llh st1) = length (st_llh st)
  /\ (length (st_Mu st1) = length (st_Mu st)
      /\ length (st_Kappa st1) = length (st_Kappa st)
      /\ length (st_Bounds st1) = length (st_Bounds st)
      /\ length (st_Pi st1) = length (st_Pi st))
  /\ (0 <= k)%Z
  /\ length (st_mu st1) = length (st_mu st)
  /\ length (st_kappa st1) = Z.to_nat k
  /\ length (st_pi st1) = Z.to_nat k.
Proof.
  unfold em_pass. cbv zeta. intros H.
  bind_inv H. destruct a as [beta l].
  bind_inv H. rename a into llh.
  bind_inv H. destruct a as [[[mu kappa] pi] bounds].
  bind_inv H. bind_inv H. bind_inv H. bind_inv H.
  injection H as <-. simpl.
  apply store_done in E0 as [Hi Hllh].
  apply m_step_done in E1 as (Hk & _ & Hmu & Hkappa & Hpi).
  apply store_done in E2 as [_ HMu]. apply store_done in E3 as [_ HKappa].
  apply store_done in E4 as [_ HBounds]. apply store_done in E5 as [_ HPi].
  repeat split; try assumption; try lia.
Qed.

Lemma em_pass_settles X k maxiter tol gamma st :
  exists o, settles (fun kf => em_pass Gamma eig kf X k maxiter tol gamma st) o
    /\ (well_shaped k maxiter st ->
        (0 <= st_iter st < maxiter)%Z -> Z.of_nat (length (st_llh st)) = maxiter ->
        k = 0%Z \/ (eig_nonempty eig /\ (1 <= ncols X)%nat) ->
        returned o).
Proof.
  destruct (e_step_settles X (st_mu st) (st_kappa st) (st_pi st) k (ncols X))
    as (o1 & [T1 [n1 H1]] & R1).
  eexists. split; [split|].
  - shelve.
  - exists n1. intros kf Hkf. unfold em_pass. cbv zeta. rewrite H1 by exact Hkf. reflexivity.
  - intros (Hk & Hmu & Hkappa & Hpi & HMu & HKappa & HBounds & HPi) Hiter Hllh Heig.
    destruct (returned_done _ (R1 Hk Hkappa Hpi Hmu)) as [[beta l] ->]. simpl.
    rewrite store_returns by lia. simpl.
    destruct (returned_done _ (m_step_returns X (st_mu st) beta k (length X) (ncols X)
                                 gamma Hk Hmu Heig)) as [[[[mu kappa] pi] bounds] ->].
    simpl. rewrite !store_returns by lia. exact I.
  Unshelve.
  apply terminated_bind; [exact T1|]. intros [beta l].
  apply terminated_bind; [apply store_terminated|]. intros llh.
  apply terminated_bind; [apply m_step_terminated|]. intros [[[mu kappa] pi] bounds].
  repeat (apply terminated_bind; [apply store_terminated|]; intros ?). exact I.
Qed.

(** *** The EM loop ends within [maxiter] passes *)

Lemma em_loop_left kf fuel X k maxiter tol gamma st :
  (0 <= st_converged st)%Z ->
  em_loop Gamma eig kf fuel X k maxiter tol gamma st = Done st.
Proof.
  intros H. destruct fuel; simpl; destruct (decide _); try lia; reflexivity.
Qed.

Lemma em_loop_pass kf fuel X k maxiter tol gamma st :
  (st_converged st < 0)%Z ->
  em_loop Gamma eig kf (S fuel) X k maxiter tol gamma st
  = (st' ← em_pass Gamma eig kf X k maxiter tol gamma st;
     em_loop Gamma eig kf fuel X k maxiter tol gamma st').
Proof. intros H. simpl. destruct (decide _); [reflexivity | lia]. Qed.

Lemma em_loop_settles X k maxiter tol gamma :
  forall (d : nat) (st : em_state),
    (st_converged st < 0)%Z -> (0 <= st_iter st)%Z ->
    (st_iter st + Z.of_nat (S d))%Z = maxiter ->
    Z.of_nat (length (st_llh st)) = maxiter ->
    exists o,
      terminated o
      /\ (exists n, forall kf fuel, (n <= kf)%nat -> (n <= fuel)%nat ->
             em_loop Gamma eig kf fuel X k maxiter tol gamma st = o)
      /\ (forall st', o = Done st' ->
             em_final maxiter tol st' /\ (well_shaped k maxiter st -> well_shaped k maxiter st'))
      /\ (well_shaped k maxiter st ->
          k = 0%Z \/ (eig_nonempty eig /\ (1 <= ncols X)%nat) -> returned o).
Proof.
  induction d as [|d IH]; intros st Hc Hi Hd Hllh.
  all: destruct (em_pass_settles X k maxiter tol gamma st) as (o1 & [T1 [n1 H1]] & R1).
  all: destruct o1 as [st1 | e |]; [| | contradiction].
  all: try (exists (Raise e); split; [exact I|]; split; [|split];
            [ exists (S n1); intros kf fuel Hkf Hfuel; destruct fuel as [|fuel]; [lia|];
              rewrite em_loop_pass by exact Hc; rewrite H1 by lia; reflexivity
            | intros st' E; discriminate E
            | intros Hws Heig; apply (R1 Hws ltac:(lia) Hllh Heig) ]).
  all: pose proof (em_pass_done _ _ _ _ _ _ _ _ (H1 n1 (Nat.le_refl n1)))
         as (Hi1 & Hc1 & _ & Hllh1 & (HMu & HKappa & HBounds & HPi) & Hk & Hmu1 & Hkappa1 & Hpi1).
  all: pose proof (ConvergenceFacts.range (st_llh st1) (st_iter st) maxiter tol Hi)
         as [Hrange Hneg].
  all: assert (Hws1 : well_shaped k maxiter st -> well_shaped k maxiter st1)
         by (unfold well_shaped; intros (? & ? & ? & ? & ? & ? & ? & ?);
             repeat split; try lia).
  all: destruct (decide (st_converged st1 < 0)%Z) as [Hc1neg | Hc1pos].
  - (* the last allowed pass cannot answer -1 *)
    rewrite Hc1 in Hc1neg. apply Hneg in Hc1neg. lia.
  - exists (Done st1). split; [exact I|]. split; [|split].
    + exists (S n1). intros kf fuel Hkf Hfuel. destruct fuel as [|fuel]; [lia|].
      rewrite em_loop_pass by exact Hc. rewrite H1 by lia. simpl.
      apply em_loop_left. lia.
    + intros st' E. injection E as <-. split; [|exact Hws1].
      unfold em_final. rewrite Hi1. replace (st_iter st + 1 - 1)%Z with (st_iter st) by lia.
      repeat split; solve [lia | exact Hc1].
    + intros _ _. exact I.
  - destruct (IH st1 Hc1neg ltac:(lia) ltac:(lia) ltac:(lia))
      as (o & To & [n Hn] & Hfinal & Hret).
    exists o. split; [exact To|]. split; [|split].
    + exists (S (Nat.max n1 n)). intros kf fuel Hkf Hfuel. destruct fuel as [|fuel]; [lia|].
      rewrite em_loop_pass by exact Hc. rewrite H1 by lia. simpl. apply Hn; lia.
    + intros st' E. destruct (Hfinal st' E) as [Hf Hw]. split; [exact Hf|]. auto.
    + intros Hws Heig. apply Hret; auto.
  - exists (Done st1). split; [exact I|]. split; [|split].
    + exists (S n1). intros kf fuel Hkf Hfuel. destruct fuel as [|fuel]; [lia|].
      rewrite em_loop_pass by exact Hc. rewrite H1 by lia. simpl.
      apply em_loop_left. lia.
    + intros st' E. injection E as <-. split; [|exact Hws1].
      unfold em_final. rewrite Hi1. replace (st_iter st + 1 - 1)%Z with (st_iter st) by lia.
      repeat split; solve [lia | exact Hc1].
    + intros _ _. exact I.
Qed.


(** *** Allocation and loop *)

Lemma run_em_settles X k maxiter tol gamma mu kappa pi :
  (1 <= maxiter)%Z ->
  exists o,
    settles (fun fuel => run_em Gamma eig fuel X k maxiter tol gamma mu kappa pi) o
    /\ (forall st, o = Done st ->
          em_final maxiter tol st
          /\ ((0 <= k)%Z -> (Z.to_nat k <= length mu)%nat ->
              (Z.to_nat k <= length kappa)%nat -> (Z.to_nat k <= length pi)%nat ->
              well_shaped k maxiter st))
    /\ ((0 <= k)%Z -> (Z.to_nat k <= length mu)%nat ->
        (Z.to_nat k <= length kappa)%nat -> (Z.to_nat k <= length pi)%nat ->
        k = 0%Z \/ (eig_nonempty eig /\ (1 <= ncols X)%nat) -> returned o).
Proof.
  intros Hmax. unfold run_em, zeros. rewrite full_nonneg by lia. simpl.
  set (st0 := EmState mu kappa pi _ _ _ _ _ 0 (-1)).
  assert (Hws0 : (0 <= k)%Z -> (Z.to_nat k <= length mu)%nat ->
                 (Z.to_nat k <= length kappa)%nat -> (Z.to_nat k <= length pi)%nat ->
                 well_shaped k maxiter st0).
  { intros. unfold well_shaped, st0. simpl. rewrite !length_replicate.
    repeat split; try assumption; lia. }
  destruct (em_loop_settles X k maxiter tol gamma (Z.to_nat (maxiter - 1)) st0)
    as (o & To & [n Hn] & Hfinal & Hret).
  { simpl. lia. }
  { simpl. lia. }
  { simpl st_iter. lia. }
  { simpl. rewrite length_replicate. lia. }
  exists o. split; [split; [exact To|]|split].
  - exists n. intros fuel Hf. apply Hn; exact Hf.
  - intros st E. destruct (Hfinal st E) as [Hf Hw]. split; [exact Hf|]. auto.
  - intros. apply Hret; auto.
Qed.

(** *** The slicing *)

Lemma trim_llh rs st r :
  trim rs st = Done r ->
  result_llh r = take (Z.to_nat (st_converged st + 1)) (st_llh st).
Proof.
  unfold trim. destruct rs; simpl.
  - intros H. injection H as <-. reflexivity.
  - intros H. bind_inv H. bind_inv H. bind_inv H. bind_inv H.
    injection H as <-. reflexivity.
Qed.

Lemma trim_terminated rs st : terminated (trim rs st).
Proof.
  unfold trim. destruct rs; [exact I|].
  repeat (apply terminated_bind; [apply index_terminated|]; intros ?). exact I.
Qed.

Lemma trim_returns rs k maxiter tol st :
  em_final maxiter tol st -> well_shaped k maxiter st -> returned (trim rs st).
Proof.
  intros (Hc & Hi & _ & _) (_ & _ & _ & _ & HMu & HKappa & HBounds & HPi).
  unfold trim. destruct rs; [exact I|].
  destruct (index_returns (st_Mu st) (Z.to_nat (st_converged st)) ltac:(lia)) as [? ->].
  destruct (index_returns (st_Kappa st) (Z.to_nat (st_converged st)) ltac:(lia)) as [? ->].
  destruct (index_returns (st_Pi st) (Z.to_nat (st_converged st)) ltac:(lia)) as [? ->].
  destruct (index_returns (st_Bounds st) (Z.to_nat (st_converged st)) ltac:(lia)) as [? ->].
  exact I.
Qed.

Lemma trimmed_length maxiter tol st :
  em_final maxiter tol st ->
  length (take (Z.to_nat (st_converged st + 1)) (st_llh st))
  = Z.to_nat (st_converged st + 1).
Proof. intros (Hc & Hi & _ & Hl). rewrite length_take. lia. Qed.

End EMFacts.

(** *** Initialisation *)

Section InitFacts.

Context {rng_state : Type}.
Variable normal : rng_state -> R * rng_state.

Lemma draw_mat_length (rows cols : nat) (g : rng_state) :
  length (fst (draw_mat normal rows cols g)) = rows.
Proof.
  revert g. induction rows as [|rows IH]; intros g; simpl; [reflexivity|].
  destruct (draw_vec normal cols g) as [r g1].
  specialize (IH g1). destruct (draw_mat normal rows cols g1) as [rs g2].
  simpl in *. lia.
Qed.

Lemma golden_spiral_init_nonneg (k : Z) :
  (0 <= k)%Z ->
  exists mu, golden_spiral_init k
             = Done (mu, replicate (Z.to_nat k) 1,
                     map (fun x => x / IZR k) (replicate (Z.to_nat k) 1))
             /\ length mu = Z.to_nat k.
Proof.
  intros Hk. unfold golden_spiral_init, ones. cbv zeta.
  rewrite full_nonneg by lia. simpl. eexists. split; [reflexivity|].
  rewrite length_zip_with, !length_map, length_seq. lia.
Qed.

Lemma golden_spiral_init_negative (k : Z) :
  (k < 0)%Z -> golden_spiral_init k = Raise ValueError.
Proof.
  intros Hk. unfold golden_spiral_init, ones. cbv zeta.
  rewrite full_negative by lia. reflexivity.
Qed.

Lemma random_init_nonneg (k : Z) (p : nat) (g : rng_state) :
  (0 <= k)%Z ->
  exists mu g', random_init normal k p g
                = (Done (mu, replicate (Z.to_nat k) 1,
                         map (fun x => x / IZR k) (replicate (Z.to_nat k) 1)), g')
                /\ length mu = Z.to_nat k.
Proof.
  intros Hk. unfold random_init, ones. destruct (decide (k < 0)%Z); [lia|].
  pose proof (draw_mat_length (Z.to_nat k) p g) as Hlen.
  destruct (draw_mat normal (Z.to_nat k) p g) as [mu g'].
  rewrite full_nonneg by lia. simpl. do 2 eexists. split; [reflexivity|].
  rewrite length_map. exact Hlen.
Qed.

Lemma random_init_negative (k : Z) (p : nat) (g : rng_state) :
  (k < 0)%Z -> random_init normal k p g = (Raise ValueError, g).
Proof. intros Hk. unfold random_init. destruct (decide (k < 0)%Z); [reflexivity | lia]. Qed.

Lemma initialise_terminated init k p (g : rng_state) :
  terminated (fst (initialise normal init k p g)).
Proof.
  assert (Hg : terminated (golden_spiral_init k)).
  { destruct (decide (k < 0)%Z).
    - rewrite golden_spiral_init_negative by lia. exact I.
    - destruct (golden_spiral_init_nonneg k ltac:(lia)) as (mu & -> & _). exact I. }
  assert (Hr : terminated (fst (random_init normal k p g))).
  { destruct (decide (k < 0)%Z).
    - rewrite random_init_negative by lia. exact I.
    - destruct (random_init_nonneg k p g ltac:(lia)) as (mu & g' & -> & _). exact I. }
  unfold initialise. destruct init as [mu kappa pi | s |]; [exact I | |].
  - destruct (string_dec _ _); [destruct (decide _); [exact Hg | exact I]|].
    destruct (string_dec _ _); [exact Hr|]. destruct (decide _); [exact Hg | exact Hr].
  - destruct (decide _); [exact Hg | exact Hr].
Qed.

Lemma initialise_returns init k p (g : rng_state) :
  (0 <= k)%Z -> init_ok init k p ->
  exists mu kappa pi g',
    initialise normal init k p g = (Done (mu, kappa, pi), g')
    /\ (Z.to_nat k <= length mu)%nat /\ (Z.to_nat k <= length kappa)%nat
    /\ (Z.to_nat k <= length pi)%nat.
Proof.
  intros Hk Hok.
  assert (Hg : exists mu kappa pi g',
             (golden_spiral_init k, g) = (Done (mu, kappa, pi), g')
             /\ (Z.to_nat k <= length mu)%nat /\ (Z.to_nat k <= length kappa)%nat
             /\ (Z.to_nat k <= length pi)%nat).
  { destruct (golden_spiral_init_nonneg k Hk) as (mu & -> & Hlen).
    do 4 eexists. split; [reflexivity|].
    rewrite length_map, length_replicate. lia. }
  assert (Hr : exists mu kappa pi g',
             random_init normal k p g = (Done (mu, kappa, pi), g')
             /\ (Z.to_nat k <= length mu)%nat /\ (Z.to_nat k <= length kappa)%nat
             /\ (Z.to_nat k <= length pi)%nat).
  { destruct (random_init_nonneg k p g Hk) as (mu & g' & -> & Hlen).
    do 4 eexists. split; [reflexivity|].
    rewrite length_map, length_replicate. lia. }
  unfold initialise. destruct init as [mu kappa pi | s |]; simpl in Hok.
  - do 4 eexists. split; [reflexivity | lia].
  - destruct (string_dec _ _) as [Hs | _].
    + destruct (decide _) as [_ | Hp]; [exact Hg | tauto].
    + destruct (string_dec _ _); [exact Hr|]. destruct (decide _); [exact Hg | exact Hr].
  - destruct (decide _); [exact Hg | exact Hr].
Qed.


End InitFacts.

(** *** The whole call *)

Section WholeCall.

Context {rng_state : Type}.
Variable seed_rng : Z -> rng_state.
Variable normal : rng_state -> R * rng_state.
Variable Gamma : R -> R.
Variable eig : list (list R) -> list R * list (list R).

Lemma np_random_seed_terminated seed (w : world) :
  terminated (fst (np_random_seed seed_rng seed w)).
Proof.
  unfold np_random_seed. destruct seed as [s|]; [|exact I].
  destruct (decide _); exact I.
Qed.

Lemma np_random_seed_ok seed (w : world) :
  seed_ok seed -> exists w', np_random_seed seed_rng seed w = (Done tt, w').
Proof.
  unfold np_random_seed, seed_ok. destruct seed as [s|]; intros H.
  - destruct (decide _); [|contradiction]. eexists; reflexivity.
  - eexists; reflexivity.
Qed.

Lemma wmm_fit_settles X k maxiter tol seed init rs gamma (w : world) :
  (1 <= maxiter)%Z ->
  exists o,
    settles (fun fuel => fst (wmm_fit seed_rng normal Gamma eig fuel X k maxiter tol
                                seed init rs gamma w)) o
    /\ (forall r, o = Done r ->
          (1 <= length (result_llh r) <= Z.to_nat maxiter)%nat)
    /\ (seed_ok seed -> (0 <= k)%Z -> init_ok init k (ncols X) ->
        k = 0%Z \/ (eig_nonempty eig /\ (1 <= ncols X)%nat) -> returned o).
Proof.
  intros Hmax. unfold wmm_fit.
  pose proof (np_random_seed_terminated seed w) as Ts.
  destruct (np_random_seed seed_rng seed w) as [[[] | e |] w'] eqn:Es;
    [| | contradiction].
  - pose proof (initialise_terminated normal init k (ncols X) (rng w')) as Ti.
    destruct (initialise normal init k (ncols X) (rng w'))
      as [[[[mu kappa] pi] | e |] g] eqn:Ei; [| | contradiction].
    + destruct (run_em_settles Gamma eig X k maxiter tol gamma mu kappa pi Hmax)
        as (o & [To [n Hn]] & Hfinal & Hret).
      exists (st ← o; trim rs st). split; [split|split].
      * apply terminated_bind; [exact To|]. intros st. apply trim_terminated.
      * exists n. intros fuel Hf. simpl. rewrite Hn by exact Hf. reflexivity.
      * intros r E. destruct o as [st | |]; simpl in E; try discriminate.
        destruct (Hfinal st eq_refl) as [Hf _].
        rewrite (trim_llh _ _ _ E), (trimmed_length _ _ _ Hf).
        destruct Hf as (? & ? & _). lia.
      * intros Hseed Hk Hinit Heig.
        destruct (initialise_returns normal init k (ncols X) (rng w') Hk Hinit)
          as (mu' & kappa' & pi' & g' & Ei' & Hmu & Hkappa & Hpi).
        rewrite Ei in Ei'. injection Ei' as <- <- <- <-.
        destruct (returned_done _ (Hret Hk Hmu Hkappa Hpi Heig)) as [st ->]. simpl.
        destruct (Hfinal st eq_refl) as [Hf Hw].
        apply (trim_returns rs k maxiter tol st Hf). auto.
    + exists (Raise e). split; [split; [exact I|]|split].
      * exists 0%nat. intros fuel _. reflexivity.
      * intros r E. discriminate E.
      * intros Hseed Hk Hinit Heig.
        destruct (initialise_returns normal init k (ncols X) (rng w') Hk Hinit)
          as (mu' & kappa' & pi' & g' & Ei' & _). congruence.
  - exists (Raise e). split; [split; [exact I|]|split].
    + exists 0%nat. intros fuel _. reflexivity.
    + intros r E. discriminate E.
    + intros Hseed. destruct (np_random_seed_ok seed w Hseed) as [w'' E]. congruence.
Qed.

End WholeCall.

(** ** Sums over the responsibility matrix *)

Lemma vsum_map_plus {A : Type} (f g : A -> R) (l : list A) :
  vsum (map (fun x => f x + g x) l) = vsum (map f l) + vsum (map g l).
Proof. induction l as [|x l IH]; simpl; [lra | rewrite IH; lra]. Qed.

Lemma vsum_map_div {A : Type} (f : A -> R) (d : R) (l : list A) :
  vsum (map (fun x => f x / d) l) = vsum (map f l) / d.
Proof.
  induction l as [|x l IH]; simpl.
  - unfold Rdiv. lra.
  - rewrite IH. unfold Rdiv. lra.
Qed.

Lemma vsum_map_zero {A : Type} (l : list A) : vsum (map (fun _ => 0) l) = 0.
Proof. induction l as [|x l IH]; simpl; [reflexivity | rewrite IH; lra]. Qed.

Lemma vsum_nonneg (v : list R) : Forall (fun x => 0 <= x) v -> 0 <= vsum v.
Proof. induction 1; simpl; lra. Qed.

(** Reading the entries of a row in order gives the row back. *)
Lemma vsum_entries (row : list R) :
  vsum (map (fun j => nth j row 0) (seq 0 (length row))) = vsum row.
Proof.
  induction row as [|x row IH]; [reflexivity|].
  simpl length. rewrite <- cons_seq, <- seq_shift, map_cons, map_map. simpl.
  rewrite IH. reflexivity.
Qed.

(** Summing an array column by column or row by row gives the same total. *)
Lemma vsum_columns (beta : list (list R)) (n : nat) :
  Forall (fun row => length row = n) beta ->
  vsum (map (fun j => vsum (column j beta)) (seq 0 n)) = vsum (map vsum beta).
Proof.
  induction 1 as [|row beta Hrow _ IH]; simpl.
  - apply vsum_map_zero.
  - rewrite (vsum_map_plus (fun j => nth j row 0) (fun j => vsum (column j beta))).
    rewrite IH. subst n. rewrite vsum_entries. reflexivity.
Qed.

Lemma vsum_rows_one (beta : list (list R)) :
  Forall (fun row => vsum row = 1) beta -> vsum (map vsum beta) = INR (length beta).
Proof.
  induction 1 as [|row beta Hrow _ IH]; [reflexivity|].
  simpl length. rewrite S_INR. simpl. rewrite IH, Hrow. lra.
Qed.

Lemma column_nonneg (j : nat) (beta : list (list R)) :
  Forall (fun row => Forall (fun x => 0 <= x) row) beta ->
  Forall (fun x => 0 <= x) (column j beta).
Proof.
  induction 1 as [|row beta Hrow _ IH]; simpl; constructor; [|exact IH].
  destruct (nth_in_or_default j row 0) as [Hin | ->]; [|lra].
  rewrite List.Forall_forall in Hrow. apply Hrow, Hin.
Qed.

Lemma mixing_weights_simplex (beta : list (list R)) (k : Z) (N : nat) :
  (1 <= N)%nat -> length beta = N ->
  Forall (fun row => Z.of_nat (length row) = k) beta ->
  Forall (fun row => Forall (fun x => 0 <= x) row) beta ->
  Forall (fun row => vsum row = 1) beta ->
  Forall (fun x => 0 <= x) (mixing_weights beta k N) /\ vsum (mixing_weights beta k N) = 1.
Proof.
  intros HN Hlen Hk Hpos Hone.
  assert (HNpos : 0 < INR N) by (apply lt_0_INR; lia).
  unfold mixing_weights. split.
  - apply List.Forall_forall. intros x Hx. apply in_map_iff in Hx as (j & <- & _).
    apply Rle_mult_inv_pos; [|exact HNpos].
    apply vsum_nonneg, column_nonneg, Hpos.
  - rewrite (vsum_map_div (fun j => vsum (column j beta))).
    rewrite vsum_columns.
    + rewrite vsum_rows_one by exact Hone. rewrite Hlen. field. lra.
    + eapply Forall_impl; [exact Hk|]. simpl. intros row Hrow. lia.
Qed.

(** ** The maximisation step: mixing weights and eigenvalue ratio *)

Module MStepFacts.

Lemma clamp_le (r : R) : clamp r <= 0.999.
Proof. unfold clamp. destruct (decide (r > 0.999)); lra. Qed.

Lemma clamp_id (r : R) : r <= 0.999 -> clamp r = r.
Proof. intros H. unfold clamp. destruct (decide (r > 0.999)); [lra | reflexivity]. Qed.

Lemma eig_diag_nonempty : eig_nonempty Sample.eig_diag.
Proof. intros S HS. destruct S as [|row S]; [contradiction|]. simpl. discriminate. Qed.

Lemma sample_scatter :
  scatter Sample.X2 Sample.beta2 2 0 = [[0.995; 0]; [0; 0.005]].
Proof.
  unfold scatter, Sample.X2, Sample.beta2, column, vsum. simpl.
  repeat (f_equal; try lra).
Qed.

Lemma sample_axis :
  component_axis Sample.eig_diag Sample.X2 Sample.beta2 2 0 = Done ([1; 0], 0.995).
Proof.
  unfold component_axis. rewrite sample_scatter.
  unfold Sample.eig_diag. simpl.
  destruct (decide (0.005 > 0.995)) as [H | _]; [lra|].
  simpl. rewrite clamp_id by lra. reflexivity.
Qed.

Lemma beta2_rows :
  Forall (fun row => Z.of_nat (length row) = 2%Z /\ Forall (fun x => 0 <= x) row
                     /\ vsum row = 1) Sample.beta2.
Proof.
  unfold Sample.beta2. repeat constructor; simpl; lra.
Qed.

(** C4. After a maximisation step on a responsibility matrix of [N >= 1]
    rows, each with [k] non-negative entries that sum to 1, the new mixing
    weights are non-negative and sum to 1. *)
Theorem mixing_weights_on_simplex eig X mu beta k N p gamma mu' kappa' pi' bounds' :
  (1 <= N)%nat -> length beta = N ->
  Forall (fun row => Z.of_nat (length row) = k /\ Forall (fun x => 0 <= x) row
                     /\ vsum row = 1) beta ->
  m_step eig X mu beta k N p gamma = Done (mu', kappa', pi', bounds') ->
  Forall (fun x => 0 <= x) pi' /\ vsum pi' = 1.
Proof.
  intros HN Hlen Hrows Hstep.
  apply m_step_done in Hstep as (_ & -> & _).
  apply mixing_weights_simplex; try assumption.
  all: eapply Forall_impl; [exact Hrows|]; simpl; tauto.
Qed.

Lemma mixing_weights_on_simplex_witness :
  exists mu' kappa' pi' bounds',
    m_step Sample.eig_diag Sample.X2 Sample.X2 Sample.beta2 2 2 2 0
    = Done (mu', kappa', pi', bounds')
    /\ Forall (fun x => 0 <= x) pi' /\ vsum pi' = 1.
Proof.
  destruct (returned_done _ (m_step_returns Sample.eig_diag Sample.X2 Sample.X2
                               Sample.beta2 2 2 2 0 ltac:(lia) ltac:(simpl; lia)
                               (or_intror (conj eig_diag_nonempty (Nat.le_succ_diag_r 1)))))
    as [[[[mu' kappa'] pi'] bounds'] Hstep].
  exists mu', kappa', pi', bounds'. split; [exact Hstep|].
  exact (mixing_weights_on_simplex Sample.eig_diag Sample.X2 Sample.X2 Sample.beta2
           2 2 2 0 mu' kappa' pi' bounds' (Nat.le_succ_diag_r 1) eq_refl beta2_rows Hstep).
Defined.

(** C5 as worded fails: with two orthogonal observations and
    responsibilities 0.995 and 0.005 the scatter matrix of the first
    component is diag(0.995, 0.005); its largest eigenvalue 0.995 does not
    exceed 0.999, so it reaches the bound estimator unchanged, above 0.99. *)
Lemma ratio_above_099 :
  exists mu_j r,
    component_axis Sample.eig_diag Sample.X2 Sample.beta2 2 0 = Done (mu_j, r)
    /\ r = 0.995 /\ ~ r <= 0.99.
Proof. exists [1; 0], 0.995. split; [exact sample_axis|]. split; [reflexivity | lra]. Qed.

(** C5, amended. In every maximisation step, for every component, the
    eigenvalue ratio [r] handed to the bound estimator is at most 0.999
    (a value above 0.999 is replaced by 0.99, a value up to 0.999 is kept),
    so [1 - r >= 0.001] and the factor [1/(1-r)] is at most 1000. *)
Theorem ratio_at_most_0999 eig X beta p j mu_j r :
  component_axis eig X beta p j = Done (mu_j, r) ->
  r <= 0.999 /\ 0.001 <= 1 - r /\ 1 / (1 - r) <= 1000.
Proof.
  intros H. apply component_axis_done in H as [r0 ->].
  pose proof (clamp_le r0) as Hle. split; [exact Hle|]. split; [lra|].
  apply (Rmult_le_reg_r (1 - clamp r0)); [lra|].
  unfold Rdiv. rewrite Rmult_assoc, Rinv_l by lra. lra.
Qed.

Lemma ratio_at_most_0999_witness : 0.995 <= 0.999.
Proof.
  exact (proj1 (ratio_at_most_0999 Sample.eig_diag Sample.X2 Sample.beta2 2 0
                  [1; 0] 0.995 sample_axis)).
Defined.

End MStepFacts.

(** ** The EM loop and the whole call *)

Module KummerFloatFacts.
Import PrimFloat.

(** C8. The claim does not hold of the code.  The passes of the EM loop
    are capped by [maxiter]; the loop of [kummer], which every expectation
    step runs once per component, is not capped at all.  In binary64
    arithmetic the call [kummer(1/2, 3/2, 1000.0)], the one the first
    expectation step makes in three dimensions from an initial
    concentration of 1000, never gets a term within the tolerance: after
    400 passes [term] and [f] are [+inf], and after 5000 passes the loop
    has not been left.  The same happens with the concentration 846, a
    value the maximisation step itself can produce.  With the
    concentration 1 the call returns after 12 terms. *)
Theorem series_loop_overflows :
  KummerFloat.kummer 5000 0.5 1.5 1000 KummerFloat.default_tol = OutOfFuel
  /\ Nat.iter 400 (KummerFloat.pass 1000) (KummerFloat.start 0.5 1.5 1000)
     = KummerFloat.Vars 400.5 401.5 infinity infinity 401
  /\ KummerFloat.kummer 5000 0.5 1.5 846 KummerFloat.default_tol = OutOfFuel
  /\ exists f, KummerFloat.kummer_iter 5000 0.5 1.5 1 KummerFloat.default_tol
               = Done (f, 12%Z).
Proof.
  split; [vm_compute; reflexivity|].
  split; [vm_compute; reflexivity|].
  split; [vm_compute; reflexivity|].
  eexists. vm_compute. reflexivity.
Qed.

End KummerFloatFacts.

Module FitFacts.

Lemma cap_reached maxiter tol st :
  em_final maxiter tol st ->
  ~ tolerance_met (st_llh st) (st_iter st - 1) tol ->
  st_iter st = maxiter /\ st_converged st = (maxiter - 1)%Z.
Proof.
  intros (Hc & Hi & Hconv & _) Hnot. unfold tolerance_met in Hnot.
  destruct (decide (st_iter st - 1 >= maxiter - 1)%Z) as [Hcap | Hcap].
  - rewrite (ConvergenceFacts.at_cap _ _ _ _ Hnot Hcap) in Hconv. split; lia.
  - assert (Hlt : (st_iter st - 1 < maxiter - 1)%Z) by lia.
    rewrite (ConvergenceFacts.continue _ _ _ _ Hnot Hlt) in Hconv. lia.
Qed.


Section Fit.

Context {rng_state : Type}.
Variable seed_rng : Z -> rng_state.
Variable normal : rng_state -> R * rng_state.
Variable Gamma : R -> R.
Variable eig : list (list R) -> list R * list (list R).


(** C9. Two calls of [wmm_fit] with the same observations, the same [k],
    the same options, the same integer seed and [init="random"] return the
    same result (all per-iteration arrays when [return_steps] is set),
    whatever state the global generator and the operating system's entropy
    were in before each call. *)
Theorem seeded_random_fit_is_reproducible fuel X k maxiter tol s rs gamma (w1 w2 : world) :
  fst (wmm_fit seed_rng normal Gamma eig fuel X k maxiter tol (Some s)
         (InitStr "random") rs gamma w1)
  = fst (wmm_fit seed_rng normal Gamma eig fuel X k maxiter tol (Some s)
           (InitStr "random") rs gamma w2).
Proof.
  unfold wmm_fit, np_random_seed. destruct (decide _); [|reflexivity]. simpl.
  destruct (random_init normal k (ncols X) (seed_rng s)) as [[[[mu kappa] pi] | e |] g];
    reflexivity.
Qed.

End Fit.


End FitFacts.

(** * Further properties of the module *)

(** ** The series evaluator, continued *)

Module KummerMore.
Import Kummer Series.

Lemma kummer_done_iter fuel a b kappa tol f :
  kummer fuel a b kappa tol = Done f ->
  exists j, kummer_iter fuel a b kappa tol = Done (f, j).
Proof.
  unfold kummer. destruct (kummer_iter fuel a b kappa tol) as [[f' j] | e |]; simpl;
    try discriminate.
  intros H. injection H as <-. exists j. reflexivity.
Qed.

Lemma ratio_nonneg a b kappa n : 0 < a -> 0 < b -> 0 <= kappa -> 0 <= ratio a b kappa n.
Proof.
  intros Ha Hb Hk. unfold ratio.
  pose proof (pos_INR n) as Hn. assert (Hs : 0 < INR (S n)) by (rewrite S_INR; lra).
  apply Rmult_le_pos; [|apply Rlt_le, Rinv_0_lt_compat; exact Hs].
  apply Rmult_le_pos; [|apply Rlt_le, Rinv_0_lt_compat; lra].
  apply Rmult_le_pos; lra.
Qed.

Lemma series_term_nonneg a b kappa n :
  0 < a -> 0 < b -> 0 <= kappa -> 0 <= series_term a b kappa n.
Proof.
  intros Ha Hb Hk. induction n as [|n IH]; simpl; [lra|].
  apply Rmult_le_pos; [exact IH | apply ratio_nonneg; assumption].
Qed.

Lemma partial_sum_grows a b kappa n :
  0 < a -> 0 < b -> 0 <= kappa ->
  partial_sum a b kappa 1 <= partial_sum a b kappa (S n).
Proof.
  intros Ha Hb Hk. induction n as [|n IH]; [lra|].
  pose proof (series_term_nonneg a b kappa (S (S n)) Ha Hb Hk) as Ht.
  change (partial_sum a b kappa (S (S n)))
    with (partial_sum a b kappa (S n) + series_term a b kappa (S (S n))).
  lra.
Qed.

Lemma partial_sum_1 a b kappa : b <> 0 -> partial_sum a b kappa 1 = 1 + a * kappa / b.
Proof.
  intros Hb. simpl. unfold ratio. simpl. field. exact Hb.
Qed.



Lemma kummer_lower_bound (a b kappa tol f : R) (fuel : nat) :
  0 < a -> 0 < b -> 0 <= kappa ->
  kummer fuel a b kappa tol = Done f -> 1 + a * kappa / b <= f.
Proof.
  intros Ha Hb Hk H.
  destruct (kummer_done_iter _ _ _ _ _ _ H) as [j Hj].
  rewrite KummerFacts.kummer_iter_at_pass in Hj.
  destruct (KummerFacts.at_pass_done _ _ _ _ _ _ _ _ Hj) as (n & Hn & _ & -> & _).
  destruct n as [|n]; [lia|].
  pose proof (partial_sum_grows a b kappa n Ha Hb Hk) as Hgrow.
  rewrite partial_sum_1 in Hgrow by lra. exact Hgrow.
Qed.

Lemma kummer_ge_1 (a b kappa tol f : R) (fuel : nat) :
  0 < a -> 0 < b -> 0 <= kappa -> kummer fuel a b kappa tol = Done f -> 1 <= f.
Proof.
  intros Ha Hb Hk H. pose proof (kummer_lower_bound _ _ _ _ _ _ Ha Hb Hk H).
  assert (0 <= a * kappa / b).
  { apply Rmult_le_pos; [apply Rmult_le_pos; lra | apply Rlt_le, Rinv_0_lt_compat; lra]. }
  lra.
Qed.

(** X2. For positive shape parameters and a concentration that is not
    negative every term of the series is non-negative, so whatever
    [kummer] returns is at least [1 + a*kappa/b], hence at least 1: the
    normalising constant built from it never divides by zero. *)
Theorem kummer_at_least_first_order (a b kappa tol f : R) (fuel : nat) :
  0 < a -> 0 < b -> 0 <= kappa ->
  kummer fuel a b kappa tol = Done f ->
  1 + a * kappa / b <= f /\ 1 <= f.
Proof.
  intros Ha Hb Hk H. split.
  - apply (kummer_lower_bound a b kappa tol f fuel); assumption.
  - apply (kummer_ge_1 a b kappa tol f fuel); assumption.
Qed.

Lemma kummer_at_least_first_order_witness :
  1 + 1 / 2 * (3 / 10) / (3 / 2) <= 1 + 1 / 2 * (3 / 10) / (3 / 2).
Proof.
  refine (proj1 (kummer_at_least_first_order (1 / 2) (3 / 2) (3 / 10) (1 / 10) _ 0 _ _ _ _)).
  - lra.
  - lra.
  - lra.
  - unfold kummer, kummer_iter. rewrite KummerFacts.loop_stop; [reflexivity|].
    replace (1 / 2 * (3 / 10) / (3 / 2)) with (1 / 10) by lra.
    rewrite Rabs_right; lra.
Defined.

Lemma loop_never_stops (fuel : nat) :
  forall a b kappa tol term f j,
    tol < 0 -> loop fuel a b kappa tol term f j = OutOfFuel.
Proof.
  induction fuel as [|fuel IH]; intros a b kappa tol term f j Htol;
    pose proof (Rabs_pos term) as Hpos.
  - apply KummerFacts.loop_out. lra.
  - rewrite KummerFacts.loop_step by lra. apply IH. exact Htol.
Qed.

(** X3. Nothing in [kummer] guards the tolerance: for positive shape
    parameters and a concentration that is not negative (so that no
    divisor is zero and every term is a number), with a negative [tol] the
    test [abs(term) > tol] never fails and the loop is never left. *)
Theorem kummer_negative_tolerance_never_returns (a b kappa tol : R) (fuel : nat) :
  0 < a -> 0 < b -> 0 <= kappa -> tol < 0 ->
  kummer_iter fuel a b kappa tol = OutOfFuel /\ kummer fuel a b kappa tol = OutOfFuel.
Proof.
  intros _ _ _ Htol.
  assert (H : kummer_iter fuel a b kappa tol = OutOfFuel)
    by (unfold kummer_iter; apply loop_never_stops; exact Htol).
  split; [exact H|]. unfold kummer. rewrite H. reflexivity.
Qed.

Lemma kummer_negative_tolerance_never_returns_witness :
  kummer 1000 (1 / 2) (3 / 2) 1 (-1) = OutOfFuel.
Proof.
  refine (proj2 (kummer_negative_tolerance_never_returns (1 / 2) (3 / 2) 1 (-1) 1000
                   _ _ _ _)); lra.
Defined.

End KummerMore.

(** ** Sequences of computations *)

Lemma mapM_done {A B : Type} (f : A -> outcome B) (l : list A) (ys : list B) :
  mapM f l = Done ys -> Forall2 (fun x y => f x = Done y) l ys.
Proof.
  revert ys. induction l as [|x l IH]; intros ys H; simpl in H.
  - injection H as <-. constructor.
  - destruct (f x) as [y | e |] eqn:Ex; simpl in H; try discriminate.
    destruct (mapM f l) as [ys' | e |]; simpl in H; try discriminate.
    injection H as <-. constructor; [exact Ex | apply IH; reflexivity].
Qed.

Lemma mapM_returns {A B : Type} (f : A -> outcome B) (l : list A) (ys : list B) :
  Forall2 (fun x y => f x = Done y) l ys -> mapM f l = Done ys.
Proof.
  induction 1 as [|x y l ys Hx _ IH]; simpl; [reflexivity|].
  rewrite Hx. simpl. rewrite IH. reflexivity.
Qed.

(** ** Sums and dot products *)

Lemma dot_opp_l (u v : list R) : dot (map Ropp u) v = - dot u v.
Proof.
  unfold dot. revert v. induction u as [|x u IH]; intros [|y v]; simpl; try lra.
  rewrite IH. lra.
Qed.

Lemma dot_opp_r (u v : list R) : dot u (map Ropp v) = - dot u v.
Proof.
  unfold dot. revert v. induction u as [|x u IH]; intros [|y v]; simpl; try lra.
  rewrite IH. lra.
Qed.

Lemma vsum_pos (l : list R) (j : nat) (x : R) :
  Forall (fun y => 0 <= y) l -> l !! j = Some x -> 0 < x -> 0 < vsum l.
Proof.
  intros Hl. revert j. induction Hl as [|y l Hy Hl IH]; intros j Hj Hx; [discriminate|].
  destruct j as [|j]; simpl in *.
  - injection Hj as ->. pose proof (vsum_nonneg l Hl). lra.
  - specialize (IH j Hj Hx). lra.
Qed.

Lemma vsum_div (l : list R) (d : R) : vsum (map (fun x => x / d) l) = vsum l / d.
Proof. rewrite (vsum_map_div (fun x => x) d l), map_id. reflexivity. Qed.

Lemma nth_nonneg (l : list R) (i : nat) : Forall (fun y => 0 <= y) l -> 0 <= nth i l 0.
Proof.
  intros Hl. destruct (nth_in_or_default i l 0) as [Hin | ->]; [|lra].
  rewrite List.Forall_forall in Hl. apply Hl, Hin.
Qed.

(** ** The densities *)

Section DensityFacts.

Variable Gamma : R -> R.

Lemma normaliser_pos (p : nat) (M : R) :
  0 < Gamma (INR p / 2) -> 1 <= M ->
  0 < Gamma (INR p / 2) / (2 * Rpower PI (INR p / 2) * M).
Proof.
  intros HG HM. apply Rdiv_lt_0_compat; [exact HG|].
  assert (0 < Rpower PI (INR p / 2)) by (unfold Rpower; apply exp_pos).
  apply Rmult_lt_0_compat; lra.
Qed.


Lemma ncols_opp (X : list (list R)) : ncols (map (map Ropp) X) = ncols X.
Proof. destruct X as [|row X]; simpl; [reflexivity | apply length_map]. Qed.

(** X4. The density is axially symmetric: [pdf] gives the same values for
    the mean direction [-mu] as for [mu], and at the points [-x] as at the
    points [x]. *)
Theorem pdf_axial_symmetry fuel X mu kappa :
  pdf Gamma fuel X (map Ropp mu) kappa = pdf Gamma fuel X mu kappa
  /\ pdf Gamma fuel (map (map Ropp) X) mu kappa = pdf Gamma fuel X mu kappa.
Proof.
  unfold pdf. cbv zeta. rewrite ncols_opp. split.
  - destruct (Kummer.kummer _ _ _ _ _) as [M | e |]; simpl; try reflexivity.
    f_equal. apply map_ext. intros x. rewrite dot_opp_l. f_equal. f_equal. f_equal. ring.
  - destruct (Kummer.kummer _ _ _ _ _) as [M | e |]; simpl; try reflexivity.
    f_equal. rewrite map_map. apply map_ext. intros x. rewrite dot_opp_r.
    f_equal. f_equal. f_equal. ring.
Qed.


End DensityFacts.


(** ** The expectation step *)

Section EStepFacts.

Variable Gamma : R -> R.

Lemma e_step_column_done fuel X mu kappa pi p j col :
  e_step_column Gamma fuel X mu kappa pi p j = Done col ->
  exists kappa_j pi_j mu_j M,
    kappa !! j = Some kappa_j /\ pi !! j = Some pi_j /\ mu !! j = Some mu_j
    /\ Kummer.kummer fuel (1 / 2) (INR p / 2) kappa_j Kummer.default_tol = Done M
    /\ col = map (fun x => pi_j * (Gamma (INR p / 2) / (2 * Rpower PI (INR p / 2) * M))
                          * exp (kappa_j * dot mu_j x ^ 2)) X.
Proof.
  unfold e_step_column, index. intros H.
  destruct (kappa !! j) as [kappa_j|]; simpl in H; [|discriminate].
  bind_inv H. rename a into M.
  destruct (pi !! j) as [pi_j|]; simpl in H; [|discriminate].
  destruct (mu !! j) as [mu_j|]; simpl in H; [|discriminate].
  injection H as <-. exists kappa_j, pi_j, mu_j, M. repeat split; assumption.
Qed.

Lemma e_step_done fuel X mu kappa pi k p beta llh :
  e_step Gamma fuel X mu kappa pi k p = Done (beta, llh) ->
  exists cols,
    (0 <= k)%Z
    /\ Forall2 (fun j col => e_step_column Gamma fuel X mu kappa pi p j = Done col)
               (seq 0 (Z.to_nat k)) cols
    /\ beta = map (fun row => map (fun x => x / vsum row) row)
                  (map (fun i => map (fun col => nth i col 0) cols) (seq 0 (length X)))
    /\ llh = vsum (map (fun row => ln (vsum row))
                       (map (fun i => map (fun col => nth i col 0) cols) (seq 0 (length X)))).
Proof.
  unfold e_step. destruct (decide (k < 0)%Z); [discriminate|]. intros H.
  bind_inv H. rename a into cols. injection H as <- <-.
  exists cols. split; [lia|]. split; [apply mapM_done; exact E|]. split; reflexivity.
Qed.

(** The columns of the unnormalised weights: non-negative, one entry per
    observation, and positive where the mixing weight is positive. *)
Lemma column_values fuel X mu kappa pi p j col :
  (1 <= p)%nat -> 0 < Gamma (INR p / 2) ->
  Forall (fun x => 0 <= x) kappa -> Forall (fun x => 0 <= x) pi ->
  e_step_column Gamma fuel X mu kappa pi p j = Done col ->
  length col = length X
  /\ Forall (fun x => 0 <= x) col
  /\ (forall pj, pi !! j = Some pj -> 0 < pj -> Forall (fun x => 0 < x) col).
Proof.
  intros Hp HG Hkappa Hpi H.
  destruct (e_step_column_done _ _ _ _ _ _ _ _ H)
    as (kappa_j & pi_j & mu_j & M & Hk & Hpj & _ & HM & ->).
  assert (Hkj : 0 <= kappa_j).
  { rewrite Forall_lookup in Hkappa. exact (Hkappa j kappa_j Hk). }
  assert (Hpij : 0 <= pi_j).
  { rewrite Forall_lookup in Hpi. exact (Hpi j pi_j Hpj). }
  assert (Hb : 0 < INR p / 2).
  { assert (1 <= INR p) by (replace 1 with (INR 1) by reflexivity; apply le_INR, Hp). lra. }
  assert (Ha : 0 < 1 / 2) by lra.
  pose proof (KummerMore.kummer_ge_1 _ _ _ _ _ _ Ha Hb Hkj HM) as HM1.
  pose proof (normaliser_pos Gamma p M HG HM1) as Hcp.
  split; [apply length_map|]. split.
  - apply List.Forall_forall. intros v Hv. apply in_map_iff in Hv as (x & <- & _).
    apply Rmult_le_pos; [apply Rmult_le_pos; lra | apply Rlt_le, exp_pos].
  - intros pj Hpj' Hpos. rewrite Hpj in Hpj'. injection Hpj' as <-.
    apply List.Forall_forall. intros v Hv. apply in_map_iff in Hv as (x & <- & _).
    apply Rmult_lt_0_compat; [apply Rmult_lt_0_compat; lra | apply exp_pos].
Qed.

Lemma normalised_row (row : list R) :
  Forall (fun x => 0 <= x) row -> 0 < vsum row ->
  Forall (fun x => 0 <= x) (map (fun x => x / vsum row) row)
  /\ vsum (map (fun x => x / vsum row) row) = 1.
Proof.
  intros Hrow Hs. split.
  - apply List.Forall_forall. intros v Hv. apply in_map_iff in Hv as (x & <- & Hx).
    rewrite List.Forall_forall in Hrow.
    apply Rmult_le_pos; [apply Hrow, Hx | apply Rlt_le, Rinv_0_lt_compat, Hs].
  - rewrite vsum_div. field. lra.
Qed.

Lemma e_step_simplex fuel X mu kappa pi k p beta llh :
  (1 <= p)%nat -> 0 < Gamma (INR p / 2) ->
  Forall (fun x => 0 <= x) kappa -> Forall (fun x => 0 <= x) pi ->
  (exists j pj, (j < Z.to_nat k)%nat /\ pi !! j = Some pj /\ 0 < pj) ->
  e_step Gamma fuel X mu kappa pi k p = Done (beta, llh) ->
  length beta = length X
  /\ Forall (fun row => Z.of_nat (length row) = k /\ Forall (fun x => 0 <= x) row
                        /\ vsum row = 1) beta.
Proof.
  intros Hp HG Hkappa Hpi (j & pj & Hj & Hpj & Hpos) H.
  destruct (e_step_done _ _ _ _ _ _ _ _ _ H) as (cols & Hk & Hcols & -> & _).
  pose proof (Forall2_length _ _ _ Hcols) as Hlen. rewrite length_seq in Hlen.
  split; [rewrite !length_map, length_seq; reflexivity|].
  apply List.Forall_forall. intros brow Hin.
  apply in_map_iff in Hin as (row & <- & Hin).
  apply in_map_iff in Hin as (i & <- & Hi). apply in_seq in Hi.
  set (row := map (fun col => nth i col 0) cols).
  assert (Hcol : forall j' col, cols !! j' = Some col ->
                   length col = length X /\ Forall (fun x => 0 <= x) col
                   /\ (forall pj', pi !! j' = Some pj' -> 0 < pj' ->
                         Forall (fun x => 0 < x) col)).
  { intros j' col Hc.
    destruct (Forall2_lookup_r _ _ _ _ _ Hcols Hc) as (j'' & Hj'' & Hdone).
    apply lookup_seq in Hj'' as [-> _]. simpl in Hdone.
    exact (column_values _ _ _ _ _ _ _ _ Hp HG Hkappa Hpi Hdone). }
  assert (Hrow : Forall (fun x => 0 <= x) row).
  { apply List.Forall_forall. intros v Hv. apply in_map_iff in Hv as (col & <- & Hc).
    apply list_elem_of_In, list_elem_of_lookup in Hc as [j' Hc].
    apply nth_nonneg. apply (Hcol j' col Hc). }
  assert (Hsum : 0 < vsum row).
  { destruct (lookup_lt_is_Some_2 cols j ltac:(lia)) as [col Hc].
    destruct (Hcol j col Hc) as (Hl & _ & Hp').
    specialize (Hp' pj Hpj Hpos).
    apply (vsum_pos row j (nth i col 0)); [exact Hrow | |].
    - unfold row. rewrite lookup_map, Hc. reflexivity.
    - rewrite List.Forall_forall in Hp'. apply Hp'. apply nth_In. lia. }
  destruct (normalised_row row Hrow Hsum) as [Hn Hone].
  split; [|split; assumption].
  rewrite length_map. unfold row. rewrite length_map. lia.
Qed.


(** *** [e_step] and [wmm_pdf] *)

Lemma column_is_weighted_pdf fuel X mu kappa pi j col :
  e_step_column Gamma fuel X mu kappa pi (ncols X) j = Done col ->
  exists c, zip (zip mu kappa) pi !! j = Some c /\ weighted_pdf Gamma fuel X c = Done col.
Proof.
  intros H.
  destruct (e_step_column_done _ _ _ _ _ _ _ _ H)
    as (kappa_j & pi_j & mu_j & M & Hk & Hpj & Hmu & HM & ->).
  exists (mu_j, kappa_j, pi_j). split.
  - apply lookup_zip_Some. split; [apply lookup_zip_Some; split|]; assumption.
  - unfold weighted_pdf, pdf. cbv zeta. rewrite HM. simpl. f_equal.
    rewrite map_map. apply map_ext. intros x. ring.
Qed.

(** X7. For [k >= 1] components whose parameter arrays have [k] rows or
    entries, the log-likelihood returned by [e_step] is the sum over the
    observations of the logarithm of the mixture density [wmm_pdf] at the
    same parameters. *)
Theorem log_likelihood_is_log_mixture_density fuel X mu kappa pi k beta llh :
  (1 <= k)%Z -> length mu = Z.to_nat k -> length kappa = Z.to_nat k ->
  length pi = Z.to_nat k ->
  e_step Gamma fuel X mu kappa pi k (ncols X) = Done (beta, llh) ->
  exists d, wmm_pdf Gamma fuel X mu kappa pi = Done (Array d)
            /\ length d = length X
            /\ llh = vsum (map ln d).
Proof.
  intros Hk Hmu Hkappa Hpi H.
  destruct (e_step_done _ _ _ _ _ _ _ _ _ H) as (cols & _ & Hcols & _ & ->).
  pose proof (Forall2_length _ _ _ Hcols) as Hlen. rewrite length_seq in Hlen.
  assert (Hterms : mapM (weighted_pdf Gamma fuel X) (zip (zip mu kappa) pi) = Done cols).
  { apply mapM_returns. apply Forall2_same_length_lookup. split.
    - rewrite !length_zip_with. lia.
    - intros j c col Hc Hcol.
      destruct (Forall2_lookup_r _ _ _ _ _ Hcols Hcol) as (j' & Hj' & Hdone).
      apply lookup_seq in Hj' as [-> _]. simpl in Hdone.
      destruct (column_is_weighted_pdf _ _ _ _ _ _ _ Hdone) as (c' & Hc' & Hw).
      rewrite Hc in Hc'. injection Hc' as <-. exact Hw. }
  unfold wmm_pdf. rewrite Hterms. simpl.
  destruct cols as [|col cols]; [simpl in Hlen; lia|].
  eexists. split; [reflexivity|]. split.
  - rewrite length_map, length_seq. reflexivity.
  - rewrite !map_map. reflexivity.
Qed.

End EStepFacts.

Lemma e_step_returns_with_fuel Gamma X mu kappa pi k p :
  (0 <= k)%Z -> (Z.to_nat k <= length kappa)%nat -> (Z.to_nat k <= length pi)%nat ->
  (Z.to_nat k <= length mu)%nat ->
  exists fuel beta llh, e_step Gamma fuel X mu kappa pi k p = Done (beta, llh).
Proof.
  intros Hk Hkappa Hpi Hmu.
  destruct (e_step_settles Gamma X mu kappa pi k p) as (o & [_ [n Hn]] & Hret).
  destruct (returned_done _ (Hret Hk Hkappa Hpi Hmu)) as [[beta llh] ->].
  exists n, beta, llh. apply Hn. lia.
Qed.


Lemma log_likelihood_is_log_mixture_density_witness :
  exists fuel beta llh d,
    e_step Sample.Gamma fuel Sample.X2 Sample.X2 [1; 1] [0.5; 0.5] 2 (ncols Sample.X2)
    = Done (beta, llh)
    /\ wmm_pdf Sample.Gamma fuel Sample.X2 Sample.X2 [1; 1] [0.5; 0.5] = Done (Array d)
    /\ llh = vsum (map ln d).
Proof.
  destruct (e_step_returns_with_fuel Sample.Gamma Sample.X2 Sample.X2 [1; 1] [0.5; 0.5] 2
              (ncols Sample.X2)) as (fuel & beta & llh & H); simpl; try lia.
  destruct (log_likelihood_is_log_mixture_density Sample.Gamma fuel Sample.X2 Sample.X2
              [1; 1] [0.5; 0.5] 2 beta llh ltac:(lia) eq_refl eq_refl eq_refl H)
    as (d & Hd & _ & Hllh).
  exists fuel, beta, llh, d. repeat split; assumption.
Defined.

(** ** One pass: the expectation step feeds the maximisation step *)

Section PassFacts.

Variable Gamma : R -> R.
Variable eig : list (list R) -> list R * list (list R).

Lemma em_pass_steps kf X k maxiter tol gamma st st1 :
  em_pass Gamma eig kf X k maxiter tol gamma st = Done st1 ->
  exists beta l bounds,
    e_step Gamma kf X (st_mu st) (st_kappa st) (st_pi st) k (ncols X) = Done (beta, l)
    /\ m_step eig X (st_mu st) beta k (length X) (ncols X) gamma
       = Done (st_mu st1, st_kappa st1, st_pi st1, bounds)
    /\ st_llh st1 !! Z.to_nat (st_iter st) = Some l
    /\ st_Mu st1 !! Z.to_nat (st_iter st) = Some (st_mu st1)
    /\ st_Kappa st1 !! Z.to_nat (st_iter st) = Some (st_kappa st1)
    /\ st_Pi st1 !! Z.to_nat (st_iter st) = Some (st_pi st1)
    /\ st_Bounds st1 !! Z.to_nat (st_iter st) = Some bounds.
Proof.
  unfold em_pass. cbv zeta. intros H.
  bind_inv H. destruct a as [beta l].
  bind_inv H. rename a into llh.
  bind_inv H. destruct a as [[[mu kappa] pi] bounds].
  bind_inv H. bind_inv H. bind_inv H. bind_inv H.
  injection H as <-. simpl. exists beta, l, bounds.
  unfold store in *.
  repeat match goal with
         | E : (if decide ?P then _ else _) = Done _ |- _ =>
             destruct (decide P); [injection E as <- | discriminate E]
         end.
  repeat split; try reflexivity; try assumption;
    apply list_lookup_insert_eq; lia.
Qed.

(** X8. One pass of the EM loop keeps the mixing weights on the simplex:
    if the pass starts from concentrations and weights that are not
    negative, with one of the [k] weights positive, on at least one
    observation in dimension [p >= 1], the weights it leaves are
    non-negative and sum to 1. *)
Theorem pass_keeps_weights_on_simplex kf X k maxiter tol gamma st st1 :
  (1 <= length X)%nat -> (1 <= ncols X)%nat -> 0 < Gamma (INR (ncols X) / 2) ->
  Forall (fun x => 0 <= x) (st_kappa st) -> Forall (fun x => 0 <= x) (st_pi st) ->
  (exists j pj, (j < Z.to_nat k)%nat /\ st_pi st !! j = Some pj /\ 0 < pj) ->
  em_pass Gamma eig kf X k maxiter tol gamma st = Done st1 ->
  Forall (fun x => 0 <= x) (st_pi st1) /\ vsum (st_pi st1) = 1.
Proof.
  intros HN Hp HG Hkappa Hpi Hpos H.
  destruct (em_pass_steps _ _ _ _ _ _ _ _ H) as (beta & l & bounds & He & Hm & _).
  destruct (e_step_simplex Gamma _ _ _ _ _ _ _ _ _ Hp HG Hkappa Hpi Hpos He)
    as [Hlen Hrows].
  apply m_step_done in Hm as (_ & -> & _).
  apply mixing_weights_simplex; try assumption.
  all: eapply Forall_impl; [exact Hrows|]; simpl; tauto.
Qed.

End PassFacts.

Lemma pass_keeps_weights_on_simplex_witness :
  exists kf st1,
    em_pass Sample.Gamma Sample.eig_diag kf Sample.X2 2 200 0.0001 0
      (EmState Sample.X2 [1; 1] [0.5; 0.5] (replicate 200 0) (replicate 200 [])
         (replicate 200 []) (replicate 200 []) (replicate 200 []) 0 (-1))
    = Done st1
    /\ vsum (st_pi st1) = 1.
Proof.
  set (st := EmState Sample.X2 [1; 1] [0.5; 0.5] (replicate 200 0) (replicate 200 [])
               (replicate 200 []) (replicate 200 []) (replicate 200 []) 0 (-1)).
  destruct (em_pass_settles Sample.Gamma Sample.eig_diag Sample.X2 2 200 0.0001 0 st)
    as (o & [_ [n Hn]] & Hret).
  assert (Hws : well_shaped 2 200 st).
  { unfold well_shaped, st. cbn -[replicate]. rewrite !length_replicate.
    repeat split; lia. }
  assert (Hllh : Z.of_nat (length (st_llh st)) = 200%Z).
  { unfold st. cbn -[replicate]. rewrite length_replicate. lia. }
  destruct (returned_done _ (Hret Hws ltac:(simpl; lia) Hllh
              (or_intror (conj MStepFacts.eig_diag_nonempty (Nat.le_succ_diag_r 1)))))
    as [st1 ->].
  exists n, st1. split; [apply Hn; lia|].
  refine (proj2 (pass_keeps_weights_on_simplex Sample.Gamma Sample.eig_diag n Sample.X2 2
                   200 0.0001 0 st st1 _ _ _ _ _ _ (Hn n (Nat.le_refl n)))).
  - simpl. lia.
  - simpl. lia.
  - unfold Sample.Gamma. lra.
  - repeat constructor; lra.
  - repeat constructor; lra.
  - exists 0%nat, 0.5. repeat split; simpl; try lia; lra.
Defined.

(** ** The initial parameters *)

Module InitMore.

Lemma vsum_replicate (n : nat) (x : R) : vsum (replicate n x) = INR n * x.
Proof.
  induction n as [|n IH]; [simpl; lra|].
  rewrite S_INR. simpl. rewrite IH. lra.
Qed.

Lemma uniform_weights (k : Z) :
  (1 <= k)%Z ->
  vsum (map (fun x => x / IZR k) (replicate (Z.to_nat k) 1)) = 1
  /\ Forall (fun x => x = 1 / IZR k) (map (fun x => x / IZR k) (replicate (Z.to_nat k) 1)).
Proof.
  intros Hk. assert (Hk0 : 0 < IZR k) by (apply IZR_lt; lia). split.
  - rewrite vsum_div, vsum_replicate, INR_IZR_INZ, Z2Nat.id by lia. field. lra.
  - apply List.Forall_forall. intros v Hv. apply in_map_iff in Hv as (x & <- & Hx).
    apply list_elem_of_In, elem_of_replicate in Hx as [-> _]. reflexivity.
Qed.

Lemma sum_squares_nonneg (v : list R) : 0 <= vsum (map (fun x => x * x) v).
Proof. induction v as [|x v IH]; simpl; [lra | nra]. Qed.

Lemma sum_squares_pos (v : list R) :
  v <> [] -> Forall (fun x => x <> 0) v -> 0 < vsum (map (fun x => x * x) v).
Proof.
  intros Hne Hv. destruct Hv as [|x v Hx Hv]; [contradiction|].
  simpl. pose proof (sum_squares_nonneg v). nra.
Qed.

(** Dividing a vector by its norm gives a vector of norm 1. *)
Lemma normalised_norm (v : list R) :
  0 < vsum (map (fun x => x * x) v) -> norm (map (fun x => x / norm v) v) = 1.
Proof.
  intros Hq. unfold norm at 1. set (n := norm v).
  assert (Hn : 0 < n) by (apply sqrt_lt_R0; exact Hq).
  assert (Hnn : n * n = vsum (map (fun x => x * x) v)) by (apply sqrt_sqrt; lra).
  rewrite map_map.
  replace (map (fun x => x / n * (x / n)) v)
    with (map (fun x => x * x / (n * n)) v)
    by (apply map_ext; intros x; field; lra).
  rewrite (vsum_map_div (fun x => x * x) (n * n) v), <- Hnn.
  replace (n * n / (n * n)) with 1 by (field; lra). apply sqrt_1.
Qed.

Section Random.

Context {rng_state : Type}.
Variable normal : rng_state -> R * rng_state.
Hypothesis never_zero : forall g, fst (normal g) <> 0.

Lemma draw_vec_shape (n : nat) (g : rng_state) :
  length (fst (draw_vec normal n g)) = n
  /\ Forall (fun x => x <> 0) (fst (draw_vec normal n g)).
Proof using never_zero.
  revert g. induction n as [|n IH]; intros g; simpl; [split; [reflexivity | constructor]|].
  pose proof (never_zero g) as Hx. destruct (normal g) as [x g1]. simpl in Hx.
  specialize (IH g1). destruct (draw_vec normal n g1) as [xs g2]. simpl in *.
  destruct IH as [Hl Hf]. split; [lia | constructor; assumption].
Qed.

Lemma draw_mat_rows (rows cols : nat) (g : rng_state) :
  Forall (fun r => length r = cols /\ Forall (fun x => x <> 0) r)
         (fst (draw_mat normal rows cols g)).
Proof using never_zero.
  revert g. induction rows as [|rows IH]; intros g; simpl; [constructor|].
  pose proof (draw_vec_shape cols g) as Hr. destruct (draw_vec normal cols g) as [r g1].
  specialize (IH g1). destruct (draw_mat normal rows cols g1) as [rs g2]. simpl in *.
  constructor; assumption.
Qed.

(** X9. For [k >= 1] and [p >= 1], with a generator whose draws are not
    exactly zero, [random_init] returns [k] mean directions with [p]
    entries and norm 1, [k] concentrations equal to 1, and [k] mixing
    weights equal to [1/k], which sum to 1. *)
Theorem random_init_unit_rows (k : Z) (p : nat) (g : rng_state) :
  (1 <= k)%Z -> (1 <= p)%nat ->
  exists mu kappa pi g',
    random_init normal k p g = (Done (mu, kappa, pi), g')
    /\ length mu = Z.to_nat k
    /\ Forall (fun row => length row = p /\ norm row = 1) mu
    /\ kappa = replicate (Z.to_nat k) 1
    /\ length pi = Z.to_nat k
    /\ Forall (fun x => x = 1 / IZR k) pi
    /\ vsum pi = 1.
Proof using never_zero.
  intros Hk Hp. unfold random_init, ones.
  destruct (decide (k < 0)%Z); [lia|].
  pose proof (draw_mat_length normal (Z.to_nat k) p g) as Hlen.
  pose proof (draw_mat_rows (Z.to_nat k) p g) as Hrows.
  destruct (draw_mat normal (Z.to_nat k) p g) as [drawn g']. simpl in Hlen, Hrows.
  rewrite full_nonneg by lia. simpl.
  destruct (uniform_weights k Hk) as [Hsum Hall].
  do 4 eexists. split; [reflexivity|].
  split; [rewrite length_map; exact Hlen|].
  split; [|split; [reflexivity|split; [|split; assumption]]].
  - apply List.Forall_forall. intros row Hin. apply in_map_iff in Hin as (r & <- & Hr).
    rewrite List.Forall_forall in Hrows. destruct (Hrows r Hr) as [Hl Hnz].
    split; [rewrite length_map; exact Hl|].
    apply normalised_norm. apply sum_squares_pos; [|exact Hnz].
    intros ->. simpl in Hl. lia.
  - rewrite length_map, length_replicate. reflexivity.
Qed.

End Random.

Lemma sample_normal_never_zero : forall g, fst (Sample.normal g) <> 0.
Proof. intros g. unfold Sample.normal. simpl. pose proof (pos_INR g). lra. Qed.

Lemma random_init_unit_rows_witness :
  exists mu kappa pi g',
    random_init Sample.normal 2 3 0%nat = (Done (mu, kappa, pi), g')
    /\ Forall (fun row => length row = 3%nat /\ norm row = 1) mu.
Proof.
  destruct (random_init_unit_rows Sample.normal sample_normal_never_zero 2 3 0%nat
              ltac:(lia) ltac:(lia)) as (mu & kappa & pi & g' & H & _ & Hrows & _).
  exists mu, kappa, pi, g'. split; assumption.
Defined.

Lemma cartesian_norm (theta phi : R) : norm (cartesian theta phi) = 1.
Proof.
  unfold norm, cartesian. simpl.
  replace (cos theta * sin phi * (cos theta * sin phi)
           + (sin theta * sin phi * (sin theta * sin phi) + (cos phi * cos phi + 0)))
    with ((Rsqr (sin theta) + Rsqr (cos theta)) * Rsqr (sin phi) + Rsqr (cos phi) - 1 + 1)
    by (unfold Rsqr; ring).
  rewrite sin2_cos2, Rmult_1_l, sin2_cos2.
  replace (1 - 1 + 1) with 1 by lra. apply sqrt_1.
Qed.

(** X10. For [k >= 1], [golden_spiral_init] returns [k] mean directions
    that all have norm 1 and are pairwise distinct, [k] concentrations
    equal to 1, and [k] mixing weights equal to [1/k], which sum to 1. *)
Theorem golden_spiral_unit_and_distinct (k : Z) :
  (1 <= k)%Z ->
  exists mu kappa pi,
    golden_spiral_init k = Done (mu, kappa, pi)
    /\ length mu = Z.to_nat k
    /\ Forall (fun row => length row = 3%nat /\ norm row = 1) mu
    /\ (forall i j ri rj, mu !! i = Some ri -> mu !! j = Some rj -> i <> j -> ri <> rj)
    /\ kappa = replicate (Z.to_nat k) 1
    /\ Forall (fun x => x = 1 / IZR k) pi
    /\ vsum pi = 1.
Proof.
  intros Hk. destruct (SpiralFacts.lookup_direction k Hk) as (mu & Hinit & Hlen & Hlook).
  destruct (uniform_weights k Hk) as [Hsum Hall].
  exists mu. do 2 eexists. split; [exact Hinit|]. split; [exact Hlen|].
  split; [|split; [|split; [reflexivity | split; assumption]]].
  - apply Forall_lookup. intros i row Hrow.
    pose proof (lookup_lt_Some _ _ _ Hrow) as Hi. rewrite Hlen in Hi.
    rewrite (Hlook i Hi) in Hrow. injection Hrow as <-.
    split; [reflexivity | apply cartesian_norm].
  - intros i j ri rj Hri Hrj Hij E. subst rj.
    pose proof (lookup_lt_Some _ _ _ Hri) as Hi. rewrite Hlen in Hi.
    pose proof (lookup_lt_Some _ _ _ Hrj) as Hj. rewrite Hlen in Hj.
    rewrite (Hlook i Hi) in Hri. rewrite (Hlook j Hj) in Hrj.
    rewrite <- Hri in Hrj. injection Hrj as _ _ Hz.
    unfold polar_angle in Hz.
    pose proof (SpiralFacts.polar_argument_range k i Hi) as Hri'.
    pose proof (SpiralFacts.polar_argument_range k j Hj) as Hrj'.
    rewrite !cos_acos in Hz by lra.
    assert (Hk0 : 0 < IZR k) by (apply IZR_lt; lia).
    assert (Heq : INR j = INR i).
    { assert (Hd : (INR j + 0.5) / IZR k = (INR i + 0.5) / IZR k) by lra.
      apply (Rmult_eq_compat_r (IZR k)) in Hd.
      unfold Rdiv in Hd. rewrite !Rmult_assoc, Rinv_l, !Rmult_1_r in Hd by lra. lra. }
    apply INR_eq in Heq. lia.
Qed.

Lemma golden_spiral_unit_and_distinct_witness :
  exists mu kappa pi,
    golden_spiral_init 4 = Done (mu, kappa, pi) /\ vsum pi = 1.
Proof.
  destruct (golden_spiral_unit_and_distinct 4 ltac:(lia))
    as (mu & kappa & pi & H & _ & _ & _ & _ & _ & Hsum).
  exists mu, kappa, pi. split; assumption.
Defined.

End InitMore.

(** ** The bound estimator and the regularisation, continued *)

Module BoundMore.

(** X11. For [0 < r < 1] and [c > a > 0] the three estimators have the
    sign of [r*c - a]: all positive when [r > a/c], all zero at
    [r = a/c], all negative when [r < a/c].  With [a = 1/2] and [c = p/2]
    the new concentration is positive exactly when the leading eigenvalue
    exceeds [1/p]. *)
Theorem bounds_have_sign_of_excess (a c r : R) :
  0 < r < 1 -> 0 < a < c ->
  (a < r * c -> 0 < lower_bound a c r /\ 0 < bound a c r /\ 0 < upper_bound a c r)
  /\ (r * c = a -> lower_bound a c r = 0 /\ bound a c r = 0 /\ upper_bound a c r = 0)
  /\ (r * c < a -> lower_bound a c r < 0 /\ bound a c r < 0 /\ upper_bound a c r < 0).
Proof.
  intros Hr Hac.
  destruct (BoundFacts.common_factor a c r Hr Hac) as (-> & -> & ->).
  pose proof (BoundFacts.t_pos a c r Hr Hac) as Ht.
  pose proof (BoundFacts.u_pos a c r Hr Hac) as Hu.
  assert (Hs : 0 <= sqrt (1 + 4 * (c + 1) * r * (1 - r) / (a * (c - a)))) by apply sqrt_pos.
  assert (Hn : 0 < / (r * (1 - r))) by (apply Rinv_0_lt_compat; nra).
  set (K := (r * c - a) / (r * (1 - r))).
  split; [|split]; intros HD.
  - assert (0 < K) by (unfold K, Rdiv; apply Rmult_lt_0_compat; lra).
    repeat split; apply Rmult_lt_0_compat; lra.
  - assert (K = 0) by (unfold K, Rdiv; rewrite HD; ring).
    repeat split; replace K with 0; ring.
  - assert (K < 0) by (unfold K, Rdiv; nra).
    repeat split; nra.
Qed.

Lemma bounds_have_sign_of_excess_witness :
  0 < bound (1 / 2) (3 / 2) (1 / 2).
Proof.
  refine (proj1 (proj2 (proj1 (bounds_have_sign_of_excess (1 / 2) (3 / 2) (1 / 2) _ _) _)));
    lra.
Defined.

(** *** Regularisation *)

Lemma regularize_row (gamma : R) (bounds : list (list R)) (x y z : R) :
  zip_with (fun b m => b + gamma * (m - b)) [x; y; z]
    (map (fun c => vsum (column c bounds) / INR (length bounds)) (seq 0 3))
  = [x + gamma * (column_mean 0 bounds - x); y + gamma * (column_mean 1 bounds - y);
     z + gamma * (column_mean 2 bounds - z)].
Proof. reflexivity. Qed.

Lemma three_entries (row : list R) :
  length row = 3%nat -> exists x y z, row = [x; y; z].
Proof.
  destruct row as [|x [|y [|z [|w row]]]]; simpl; intros H; try lia.
  exists x, y, z. reflexivity.
Qed.

Lemma regularize_rows (gamma : R) (bounds : list (list R)) :
  Forall (fun row => length row = 3%nat) bounds ->
  regularize gamma bounds
  = map (fun row => [nth 0 row 0 + gamma * (column_mean 0 bounds - nth 0 row 0);
                     nth 1 row 0 + gamma * (column_mean 1 bounds - nth 1 row 0);
                     nth 2 row 0 + gamma * (column_mean 2 bounds - nth 2 row 0)]) bounds.
Proof.
  intros H. unfold regularize. cbv zeta. apply map_ext_in. intros row Hin.
  rewrite List.Forall_forall in H. destruct (three_entries row (H row Hin)) as (x & y & z & ->).
  apply regularize_row.
Qed.

Lemma column_map (c : nat) {A : Type} (f : A -> list R) (l : list A) :
  column c (map f l) = map (fun x => nth c (f x) 0) l.
Proof. unfold column. apply map_map. Qed.

Lemma vsum_shrunk (gamma m : R) (col : list R) :
  vsum (map (fun x => x + gamma * (m - x)) col)
  = vsum col + gamma * (INR (length col) * m - vsum col).
Proof.
  induction col as [|x col IH]; [simpl; lra|].
  simpl length. rewrite S_INR. simpl. rewrite IH. lra.
Qed.

(** X12. Regularisation does not move the across-component mean: for a
    non-empty [bounds] array with three columns, each column of
    [bounds + gamma*(bounds.mean(axis=0) - bounds)] has the mean of the
    same column of [bounds], for every [gamma]. *)
Theorem regularize_keeps_column_means (gamma : R) (bounds : list (list R)) (c : nat) :
  bounds <> [] -> Forall (fun row => length row = 3%nat) bounds -> (c < 3)%nat ->
  column_mean c (regularize gamma bounds) = column_mean c bounds.
Proof.
  intros Hne Hrows Hc.
  assert (Hn : 0 < INR (length bounds)).
  { apply lt_0_INR. destruct bounds; [contradiction | simpl; lia]. }
  unfold column_mean at 1. rewrite regularize_length.
  rewrite regularize_rows by exact Hrows. rewrite column_map.
  assert (Hcol : map (fun row => nth c [nth 0 row 0 + gamma * (column_mean 0 bounds - nth 0 row 0);
                                        nth 1 row 0 + gamma * (column_mean 1 bounds - nth 1 row 0);
                                        nth 2 row 0 + gamma * (column_mean 2 bounds - nth 2 row 0)] 0)
                     bounds
                 = map (fun x => x + gamma * (column_mean c bounds - x)) (column c bounds)).
  { unfold column. rewrite map_map. apply map_ext. intros row.
    destruct c as [|[|[|c]]]; try lia; reflexivity. }
  rewrite Hcol, vsum_shrunk. unfold column at 2, column_mean. rewrite length_map.
  fold (column c bounds). field. lra.
Qed.

Lemma regularize_keeps_column_means_witness :
  column_mean 1 (regularize 0.5 [[1; 2; 3]; [3; 4; 5]]) = column_mean 1 [[1; 2; 3]; [3; 4; 5]].
Proof.
  apply regularize_keeps_column_means.
  - discriminate.
  - repeat constructor.
  - lia.
Defined.

Lemma column_mean_le (c d : nat) (bounds : list (list R)) :
  Forall (fun row => nth c row 0 <= nth d row 0) bounds ->
  column_mean c bounds <= column_mean d bounds.
Proof.
  intros H. unfold column_mean, Rdiv.
  apply Rmult_le_compat_r.
  - destruct bounds as [|row bounds]; [simpl; rewrite Rinv_0; lra|].
    apply Rlt_le, Rinv_0_lt_compat, lt_0_INR. simpl. lia.
  - unfold column. induction H as [|row bounds Hrow _ IH]; simpl; lra.
Qed.

(** X13. For [0 <= gamma <= 1], regularisation keeps every bound triple in
    order: if each row of [bounds] is (lower, central, upper) with
    [lower <= central <= upper], so is each row of the regularised array. *)
Theorem regularize_keeps_order (gamma : R) (bounds : list (list R)) :
  0 <= gamma <= 1 -> Forall ordered_triple bounds ->
  Forall ordered_triple (regularize gamma bounds).
Proof.
  intros Hg Hord.
  assert (Hrows : Forall (fun row => length row = 3%nat) bounds).
  { eapply Forall_impl; [exact Hord|]. intros row (l & b & u & -> & _). reflexivity. }
  assert (H01 : column_mean 0 bounds <= column_mean 1 bounds).
  { apply column_mean_le. eapply Forall_impl; [exact Hord|].
    intros row (l & b & u & -> & Hle). simpl. lra. }
  assert (H12 : column_mean 1 bounds <= column_mean 2 bounds).
  { apply column_mean_le. eapply Forall_impl; [exact Hord|].
    intros row (l & b & u & -> & Hle). simpl. lra. }
  rewrite regularize_rows by exact Hrows.
  apply List.Forall_forall. intros row Hin. apply in_map_iff in Hin as (row0 & <- & Hin).
  rewrite List.Forall_forall in Hord. destruct (Hord row0 Hin) as (l & b & u & -> & Hle).
  simpl. eexists _, _, _. split; [reflexivity|]. nra.
Qed.

Lemma regularize_keeps_order_witness :
  Forall ordered_triple (regularize 0.5 [[1; 2; 3]; [3; 4; 5]]).
Proof.
  apply regularize_keeps_order; [lra|].
  repeat constructor; eexists _, _, _; (split; [reflexivity | lra]).
Defined.

(** X14. The two ends of the regularisation: with the default [gamma = 0]
    the bounds are returned unchanged; with [gamma = 1] every row becomes
    the row of column means. *)
Theorem regularize_endpoints (bounds : list (list R)) :
  Forall (fun row => length row = 3%nat) bounds ->
  regularize 0 bounds = bounds
  /\ Forall (fun row => row = [column_mean 0 bounds; column_mean 1 bounds;
                               column_mean 2 bounds]) (regularize 1 bounds).
Proof.
  intros Hrows. split.
  - rewrite regularize_rows by exact Hrows.
    rewrite <- (map_id bounds) at 2. apply map_ext_in. intros row Hin.
    rewrite List.Forall_forall in Hrows.
    destruct (three_entries row (Hrows row Hin)) as (x & y & z & ->). simpl.
    f_equal; [|f_equal; [|f_equal]]; ring.
  - rewrite regularize_rows by exact Hrows.
    apply List.Forall_forall. intros row Hin. apply in_map_iff in Hin as (row0 & <- & _).
    f_equal; [|f_equal; [|f_equal]]; ring.
Qed.

Lemma regularize_endpoints_witness :
  regularize 0 [[1; 2; 3]; [3; 4; 5]] = [[1; 2; 3]; [3; 4; 5]].
Proof.
  refine (proj1 (regularize_endpoints [[1; 2; 3]; [3; 4; 5]] _)).
  repeat constructor.
Defined.

End BoundMore.

(** ** The scatter matrix *)

Module ScatterFacts.

Lemma nth_map_seq {A : Type} (f : nat -> A) (p a : nat) (d : A) :
  (a < p)%nat -> nth a (map f (seq 0 p)) d = f a.
Proof.
  intros Ha. rewrite nth_lookup, lookup_map, lookup_seq_lt by exact Ha. reflexivity.
Qed.

Lemma scatter_entry X beta p j a b :
  (a < p)%nat -> (b < p)%nat ->
  entry (scatter X beta p j) a b
  = vsum (zip_with (fun w x => w * nth a x 0 * nth b x 0) (column j beta) X)
    / vsum (column j beta).
Proof.
  intros Ha Hb. unfold entry, scatter. cbv zeta.
  rewrite (nth_map_seq _ p a []) by exact Ha.
  rewrite (nth_map_seq _ p b 0) by exact Hb. reflexivity.
Qed.

Lemma zip_with_pointwise {A B C : Type} (f g : A -> B -> C) (l : list A) (k : list B) :
  (forall x y, f x y = g x y) -> zip_with f l k = zip_with g l k.
Proof.
  intros H. revert k. induction l as [|x l IH]; intros [|y k]; simpl; try reflexivity.
  rewrite H, IH. reflexivity.
Qed.

Lemma vsum_map_scale {A : Type} (w : R) (f : A -> R) (l : list A) :
  vsum (map (fun x => w * f x) l) = w * vsum (map f l).
Proof. induction l as [|x l IH]; simpl; [lra | rewrite IH; lra]. Qed.

(** The sum over the axes of the weighted squares is the weighted sum of
    the squared lengths. *)
Lemma sum_over_axes (p : nat) (bj : list R) (X : list (list R)) :
  vsum (map (fun a => vsum (zip_with (fun w x => w * nth a x 0 * nth a x 0) bj X)) (seq 0 p))
  = vsum (zip_with (fun w x => w * vsum (map (fun a => nth a x 0 * nth a x 0) (seq 0 p)))
                   bj X).
Proof.
  revert X. induction bj as [|w bj IH]; intros [|x X]; simpl;
    try (apply vsum_map_zero).
  rewrite (vsum_map_plus (fun a => w * nth a x 0 * nth a x 0)
             (fun a => vsum (zip_with (fun w x => w * nth a x 0 * nth a x 0) bj X))).
  rewrite IH. f_equal.
  rewrite <- (vsum_map_scale w (fun a => nth a x 0 * nth a x 0)).
  f_equal. apply map_ext. intros a. ring.
Qed.

Lemma squares_by_index (x : list R) :
  map (fun a => nth a x 0 * nth a x 0) (seq 0 (length x)) = map (fun v => v * v) x.
Proof.
  induction x as [|v x IH]; [reflexivity|].
  simpl length. rewrite <- cons_seq, <- seq_shift, map_cons, map_map. simpl.
  rewrite IH. reflexivity.
Qed.

Lemma unit_norm_squares (x : list R) : norm x = 1 -> vsum (map (fun v => v * v) x) = 1.
Proof.
  unfold norm. intros H.
  rewrite <- (sqrt_sqrt (vsum (map (fun v => v * v) x))) by apply InitMore.sum_squares_nonneg.
  rewrite H. lra.
Qed.

Lemma weights_of_unit_points (p : nat) (bj : list R) (X : list (list R)) :
  length X = length bj -> Forall (fun x => length x = p /\ norm x = 1) X ->
  vsum (zip_with (fun w x => w * vsum (map (fun a => nth a x 0 * nth a x 0) (seq 0 p))) bj X)
  = vsum bj.
Proof.
  intros Hlen HX. revert bj Hlen.
  induction HX as [|x X [Hl Hn] _ IH]; intros [|w bj] Hlen; simpl in *; try lia;
    [reflexivity|].
  rewrite IH by lia. subst p. rewrite squares_by_index, (unit_norm_squares x Hn). lra.
Qed.

(** X15. For observations of norm 1 (one per row of [beta], each with [p]
    entries) and a component whose responsibilities do not sum to zero,
    the scatter matrix formed in [m_step] is symmetric and has trace 1. *)
Theorem scatter_symmetric_with_unit_trace X beta p j :
  length X = length beta ->
  Forall (fun x => length x = p /\ norm x = 1) X ->
  vsum (column j beta) <> 0 ->
  (forall a b, (a < p)%nat -> (b < p)%nat ->
     entry (scatter X beta p j) a b = entry (scatter X beta p j) b a)
  /\ trace p (scatter X beta p j) = 1.
Proof.
  intros Hlen HX Hs. split.
  - intros a b Ha Hb. rewrite !scatter_entry by assumption. f_equal. f_equal.
    apply zip_with_pointwise. intros w x. ring.
  - unfold trace.
    rewrite (map_ext_in _ (fun a => vsum (zip_with (fun w x => w * nth a x 0 * nth a x 0)
                                            (column j beta) X) / vsum (column j beta))).
    + rewrite (vsum_map_div (fun a => vsum (zip_with (fun w x => w * nth a x 0 * nth a x 0)
                                              (column j beta) X))).
      rewrite sum_over_axes, (weights_of_unit_points p _ X); [field; exact Hs | | exact HX].
      unfold column. rewrite length_map. exact Hlen.
    + intros a Ha. apply in_seq in Ha. apply (scatter_entry X beta p j a a); lia.
Qed.

Lemma norm_e1 : norm [1; 0] = 1.
Proof. unfold norm. simpl. replace (1 * 1 + (0 * 0 + 0)) with 1 by lra. apply sqrt_1. Qed.

Lemma norm_e2 : norm [0; 1] = 1.
Proof. unfold norm. simpl. replace (0 * 0 + (1 * 1 + 0)) with 1 by lra. apply sqrt_1. Qed.

Lemma scatter_symmetric_with_unit_trace_witness :
  trace 2 (scatter Sample.X2 Sample.beta2 2 0) = 1.
Proof.
  refine (proj2 (scatter_symmetric_with_unit_trace Sample.X2 Sample.beta2 2 0 _ _ _)).
  - reflexivity.
  - repeat constructor; solve [reflexivity | apply norm_e1 | apply norm_e2].
  - unfold Sample.beta2, column, vsum. simpl. lra.
Defined.

End ScatterFacts.

(** ** The whole call, continued *)

Module FitMore.

Section Loop.

Variable Gamma : R -> R.
Variable eig : list (list R) -> list R * list (list R).

(** What a returning loop leaves, for any fuel. *)
Lemma em_loop_done kf X k maxiter tol gamma :
  forall fuel st st',
    em_loop Gamma eig kf fuel X k maxiter tol gamma st = Done st' ->
    (st_converged st < 0)%Z -> (0 <= st_iter st)%Z ->
    Z.of_nat (length (st_llh st)) = maxiter ->
    em_final maxiter tol st'
    /\ (st_iter st < st_iter st')%Z
    /\ length (st_Mu st') = length (st_Mu st)
    /\ length (st_Kappa st') = length (st_Kappa st)
    /\ length (st_Bounds st') = length (st_Bounds st)
    /\ length (st_Pi st') = length (st_Pi st).
Proof.
  induction fuel as [|fuel IH]; intros st st' H Hc Hi Hllh.
  - simpl in H. destruct (decide _); [discriminate | lia].
  - rewrite em_loop_pass in H by exact Hc. bind_inv H. rename a into st1.
    pose proof (em_pass_done _ _ _ _ _ _ _ _ _ _ E)
      as (Hi1 & Hc1 & Hin & Hllh1 & (HMu & HKappa & HBounds & HPi) & _).
    pose proof (ConvergenceFacts.range (st_llh st1) (st_iter st) maxiter tol Hi)
      as [Hrange Hneg].
    destruct (decide (st_converged st1 < 0)%Z) as [Hneg1 | Hpos1].
    + destruct (IH st1 st' H Hneg1 ltac:(lia) ltac:(lia))
        as (Hf & Hlt & HMu' & HKappa' & HBounds' & HPi').
      repeat split; try apply Hf; try lia.
    + rewrite em_loop_left in H by lia. injection H as <-.
      unfold em_final. rewrite Hi1.
      replace (st_iter st + 1 - 1)%Z with (st_iter st) by lia.
      repeat split; solve [lia | exact Hc1 | assumption].
Qed.

Lemma run_em_done fuel X k maxiter tol gamma mu kappa pi st :
  run_em Gamma eig fuel X k maxiter tol gamma mu kappa pi = Done st ->
  em_final maxiter tol st
  /\ Z.of_nat (length (st_Mu st)) = maxiter /\ Z.of_nat (length (st_Kappa st)) = maxiter
  /\ Z.of_nat (length (st_Bounds st)) = maxiter /\ Z.of_nat (length (st_Pi st)) = maxiter.
Proof.
  unfold run_em, zeros, full. destruct (decide (maxiter < 0)%Z); [discriminate|].
  simpl. intros H.
  apply em_loop_done in H as (Hf & _ & HMu & HKappa & HBounds & HPi).
  - simpl in *. rewrite !length_replicate in *. split; [exact Hf|]. repeat split; lia.
  - simpl. lia.
  - simpl. lia.
  - simpl. rewrite length_replicate. lia.
Qed.

(** The cap on the passes, for a run that returns: between 1 and
    [maxiter] passes were made, and a tolerance test that fails in the
    last pass means that pass is number [maxiter]. *)
Lemma passes_within_cap fuel X k maxiter tol gamma mu kappa pi st :
  run_em Gamma eig fuel X k maxiter tol gamma mu kappa pi = Done st ->
  (1 <= st_iter st <= maxiter)%Z
  /\ (0 <= st_converged st < st_iter st)%Z
  /\ (~ tolerance_met (st_llh st) (st_iter st - 1) tol ->
      st_iter st = maxiter /\ st_converged st = (maxiter - 1)%Z).
Proof.
  intros H. destruct (run_em_done _ _ _ _ _ _ _ _ _ _ H) as [Hf _].
  pose proof Hf as (Hc & Hi & _).
  split; [lia|]. split; [lia|]. apply FitFacts.cap_reached. exact Hf.
Qed.

(** X16. The first pass never ends the run by itself unless it is the only
    one allowed: whenever the EM loop returns, it has made exactly one
    pass if [maxiter = 1] (with [converged = 0]) and at least two passes
    if [maxiter >= 2]; it never returns for [maxiter <= 0]. *)
Theorem first_pass_never_converges fuel X k maxiter tol gamma mu kappa pi st :
  run_em Gamma eig fuel X k maxiter tol gamma mu kappa pi = Done st ->
  (1 <= maxiter)%Z
  /\ (maxiter = 1%Z -> st_iter st = 1%Z /\ st_converged st = 0%Z)
  /\ ((2 <= maxiter)%Z -> (2 <= st_iter st)%Z).
Proof.
  intros H. destruct (run_em_done _ _ _ _ _ _ _ _ _ _ H) as [(Hc & Hi & Hconv & _) _].
  split; [lia|]. split; [intros ->; lia|].
  intros Hmax. destruct (decide (st_iter st = 1%Z)) as [E | NE]; [|lia].
  rewrite E in Hconv. change (1 - 1)%Z with 0%Z in Hconv.
  rewrite ConvergenceFacts.continue in Hconv by lia. lia.
Qed.

Lemma last_take {A : Type} (l : list A) (c : nat) (x : A) :
  l !! c = Some x -> last (take (S c) l) = Some x.
Proof.
  intros H. pose proof (lookup_lt_Some _ _ _ H) as Hc.
  rewrite last_lookup, length_take, Nat.min_l by lia. simpl.
  rewrite lookup_take_lt by lia. exact H.
Qed.

Lemma index_done {A : Type} (l : list A) (j : nat) (x : A) :
  l !! j = Some x -> index l j = Done x.
Proof. intros H. unfold index. rewrite H. reflexivity. Qed.

(** The two ways of slicing the same loop state. *)
Lemma trim_both st Mu Kappa Pi llh Bounds :
  (0 <= st_converged st)%Z ->
  (Z.to_nat (st_converged st) < length (st_Mu st))%nat ->
  (Z.to_nat (st_converged st) < length (st_Kappa st))%nat ->
  (Z.to_nat (st_converged st) < length (st_Pi st))%nat ->
  (Z.to_nat (st_converged st) < length (st_Bounds st))%nat ->
  trim true st = Done (Steps Mu Kappa Pi llh Bounds) ->
  exists mu kappa pi bounds,
    trim false st = Done (Final mu kappa pi llh bounds)
    /\ last Mu = Some mu /\ last Kappa = Some kappa /\ last Pi = Some pi
    /\ last Bounds = Some bounds
    /\ length Mu = Z.to_nat (st_converged st + 1)
    /\ length Kappa = length Mu /\ length Pi = length Mu /\ length Bounds = length Mu.
Proof.
  intros Hc HMu HKappa HPi HBounds H. unfold trim in *. simpl in H.
  injection H as <- <- <- <- <-.
  replace (Z.to_nat (st_converged st + 1)) with (S (Z.to_nat (st_converged st))) by lia.
  destruct (lookup_lt_is_Some_2 _ _ HMu) as [mu Emu].
  destruct (lookup_lt_is_Some_2 _ _ HKappa) as [kappa Ekappa].
  destruct (lookup_lt_is_Some_2 _ _ HPi) as [pi Epi].
  destruct (lookup_lt_is_Some_2 _ _ HBounds) as [bounds Ebounds].
  exists mu, kappa, pi, bounds.
  rewrite (index_done _ _ _ Emu), (index_done _ _ _ Ekappa), (index_done _ _ _ Epi),
    (index_done _ _ _ Ebounds). simpl.
  repeat split; try (apply last_take; assumption); rewrite !length_take; lia.
Qed.

End Loop.

Section Call.

Context {rng_state : Type}.
Variable seed_rng : Z -> rng_state.
Variable normal : rng_state -> R * rng_state.
Variable Gamma : R -> R.
Variable eig : list (list R) -> list R * list (list R).

Lemma wmm_fit_done fuel X k maxiter tol seed init rs gamma (w : world) r :
  fst (wmm_fit seed_rng normal Gamma eig fuel X k maxiter tol seed init rs gamma w) = Done r ->
  exists w' mu kappa pi g st,
    np_random_seed seed_rng seed w = (Done tt, w')
    /\ initialise normal init k (ncols X) (rng w') = (Done (mu, kappa, pi), g)
    /\ run_em Gamma eig fuel X k maxiter tol gamma mu kappa pi = Done st
    /\ trim rs st = Done r.
Proof.
  unfold wmm_fit.
  destruct (np_random_seed seed_rng seed w) as [[[] | e |] w'] eqn:Es; simpl;
    try discriminate.
  destruct (initialise normal init k (ncols X) (rng w'))
    as [[[[mu kappa] pi] | e |] g] eqn:Ei; simpl; try discriminate.
  intros H. bind_inv H. rename a into st.
  exists w', mu, kappa, pi, g, st. repeat split; assumption.
Qed.

(** X17. The terminal snapshot is the end of the history: if a call with
    [return_steps] set returns the arrays [Mu], [Kappa], [Pi], [llh],
    [Bounds], the same call without [return_steps] returns the last entry
    of each of [Mu], [Kappa], [Pi] and [Bounds], and the same [llh]; the
    four histories and [llh] have the same length, between 1 and
    [maxiter]. *)
Theorem final_is_last_of_steps fuel X k maxiter tol seed init gamma (w : world)
    Mu Kappa Pi llh Bounds :
  fst (wmm_fit seed_rng normal Gamma eig fuel X k maxiter tol seed init true gamma w)
  = Done (Steps Mu Kappa Pi llh Bounds) ->
  exists mu kappa pi bounds,
    fst (wmm_fit seed_rng normal Gamma eig fuel X k maxiter tol seed init false gamma w)
    = Done (Final mu kappa pi llh bounds)
    /\ last Mu = Some mu /\ last Kappa = Some kappa /\ last Pi = Some pi
    /\ last Bounds = Some bounds
    /\ (1 <= length llh <= Z.to_nat maxiter)%nat
    /\ length Mu = length llh /\ length Kappa = length llh
    /\ length Pi = length llh /\ length Bounds = length llh.
Proof.
  intros H.
  destruct (wmm_fit_done _ _ _ _ _ _ _ _ _ _ _ H)
    as (w' & mu0 & kappa0 & pi0 & g & st & Hs & Hi & Hrun & Htrim).
  destruct (run_em_done Gamma eig _ _ _ _ _ _ _ _ _ _ Hrun)
    as (Hf & HMu & HKappa & HBounds & HPi).
  pose proof Hf as (Hc & Hit & _ & Hl).
  destruct (trim_both st Mu Kappa Pi llh Bounds) as
    (mu & kappa & pi & bounds & Hfinal & H1 & H2 & H3 & H4 & L1 & L2 & L3 & L4);
    try lia; try exact Htrim.
  assert (Hllh : length llh = Z.to_nat (st_converged st + 1)).
  { pose proof (trim_llh _ _ _ Htrim) as E. simpl in E. rewrite E.
    apply (trimmed_length _ _ _ Hf). }
  exists mu, kappa, pi, bounds. split.
  - unfold wmm_fit. rewrite Hs, Hi. simpl. rewrite Hrun. simpl. exact Hfinal.
  - repeat split; try assumption; lia.
Qed.

(** *** Failures before the loop *)

Lemma np_random_seed_bad seed (w : world) :
  ~ seed_ok seed -> np_random_seed seed_rng seed w = (Raise ValueError, w).
Proof.
  unfold seed_ok, np_random_seed. destruct seed as [s|]; [|tauto].
  intros H. destruct (decide _); [contradiction | reflexivity].
Qed.

Lemma world_eta (w : @world rng_state) : World (rng w) (entropy w) = w.
Proof. destruct w; reflexivity. Qed.

(** X18. The order of the checks made before the loop: a seed that numpy
    rejects fails the call with [ValueError] and leaves the generator as
    it was; with an acceptable seed, asking for the spiral in a dimension
    other than 3 fails the assertion, whatever [k] and [maxiter] are and
    before any pass of the loop, the generator having been reseeded. *)
Theorem spiral_needs_three_dimensions fuel X k maxiter tol seed s rs gamma (w : world) :
  lower s = "spiral"%string -> ncols X <> 3%nat ->
  (~ seed_ok seed ->
   wmm_fit seed_rng normal Gamma eig fuel X k maxiter tol seed (InitStr s) rs gamma w
   = (Raise ValueError, w))
  /\ (seed_ok seed ->
      wmm_fit seed_rng normal Gamma eig fuel X k maxiter tol seed (InitStr s) rs gamma w
      = (Raise AssertionError, snd (np_random_seed seed_rng seed w))).
Proof.
  intros Hs Hp. split; intros Hseed; unfold wmm_fit.
  - rewrite np_random_seed_bad by exact Hseed. reflexivity.
  - destruct (np_random_seed_ok seed_rng seed w Hseed) as [w' ->]. simpl.
    destruct (string_dec (lower s) "spiral"); [|contradiction].
    destruct (decide (ncols X = 3%nat)); [contradiction|].
    rewrite world_eta. reflexivity.
Qed.

(** X19. [maxiter] is not checked either.  For [k >= 0], an acceptable
    seed and a well-shaped initialisation, a negative [maxiter] fails with
    the [ValueError] of the allocation of the history, before the loop.
    With [maxiter = 0], data of at least one column and an initialisation
    that is not an explicit dict (so that the concentrations the first
    expectation step sees are all 1), the call fails with [IndexError]
    when the first log-likelihood is stored, after that expectation
    step. *)
Theorem nonpositive_maxiter_fails X k maxiter tol seed init rs gamma (w : world) :
  seed_ok seed -> (0 <= k)%Z -> init_ok init k (ncols X) ->
  ((maxiter < 0)%Z ->
   forall fuel,
     fst (wmm_fit seed_rng normal Gamma eig fuel X k maxiter tol seed init rs gamma w)
     = Raise ValueError)
  /\ (maxiter = 0%Z -> ~ is_dict init -> (1 <= ncols X)%nat ->
      settles (fun fuel => fst (wmm_fit seed_rng normal Gamma eig fuel X k maxiter tol
                                  seed init rs gamma w)) (Raise IndexError)).
Proof.
  intros Hseed Hk Hinit.
  destruct (np_random_seed_ok seed_rng seed w Hseed) as [w' Hs].
  destruct (initialise_returns normal init k (ncols X) (rng w') Hk Hinit)
    as (mu & kappa & pi & g & Hi & Hmu & Hkappa & Hpi).
  split.
  - intros Hneg fuel. unfold wmm_fit. rewrite Hs, Hi. simpl.
    unfold run_em, zeros. rewrite full_negative by exact Hneg. reflexivity.
  - intros -> _ _. split; [exact I|].
    destruct (e_step_settles Gamma X mu kappa pi k (ncols X)) as (o & [_ [n Hn]] & Hret).
    destruct (returned_done _ (Hret Hk Hkappa Hpi Hmu)) as [[beta l] ->].
    exists (S n). intros fuel Hf. destruct fuel as [|fuel]; [lia|].
    unfold wmm_fit. rewrite Hs, Hi. simpl.
    unfold run_em, zeros. rewrite full_nonneg by lia. simpl.
    unfold em_pass. cbv zeta. simpl. rewrite Hn by lia. reflexivity.
Qed.

(** *** Initialisations that do not draw *)

Lemma initialise_without_draws init k p (g1 g2 : rng_state) :
  draws_nothing init p ->
  fst (initialise normal init k p g1) = fst (initialise normal init k p g2).
Proof.
  unfold draws_nothing, initialise. destruct init as [mu kappa pi | s |]; intros H.
  - reflexivity.
  - destruct (string_dec (lower s) "spiral") as [_ | Hns].
    + destruct (decide _); reflexivity.
    + destruct H as [H | [Hnr Hp]]; [contradiction|].
      destruct (string_dec (lower s) "random"); [contradiction|].
      destruct (decide _); [reflexivity | contradiction].
  - destruct (decide _); [reflexivity | contradiction].
Qed.

(** X20. With an explicit initialisation, with [init="spiral"], or with
    the default initialisation in three dimensions, the result of
    [wmm_fit] does not depend on the seed (among the seeds numpy accepts)
    nor on the state of the generator. *)
Theorem fit_without_draws_ignores_seed fuel X k maxiter tol seed1 seed2 init rs gamma
    (w1 w2 : world) :
  draws_nothing init (ncols X) -> seed_ok seed1 -> seed_ok seed2 ->
  fst (wmm_fit seed_rng normal Gamma eig fuel X k maxiter tol seed1 init rs gamma w1)
  = fst (wmm_fit seed_rng normal Gamma eig fuel X k maxiter tol seed2 init rs gamma w2).
Proof.
  intros Hd H1 H2. unfold wmm_fit.
  destruct (np_random_seed_ok seed_rng seed1 w1 H1) as [w1' ->].
  destruct (np_random_seed_ok seed_rng seed2 w2 H2) as [w2' ->].
  pose proof (initialise_without_draws init k (ncols X) (rng w1') (rng w2') Hd) as E.
  destruct (initialise normal init k (ncols X) (rng w1')) as [o1 g1].
  destruct (initialise normal init k (ncols X) (rng w2')) as [o2 g2].
  simpl in E. subst o2. destruct o1 as [[[mu kappa] pi] | e |]; reflexivity.
Qed.

End Call.

Lemma first_pass_never_converges_witness :
  exists fuel st,
    run_em Sample.Gamma Sample.eig_diag fuel Sample.X2 2 200 0.0001 0 Sample.X2 [1; 1]
      [0.5; 0.5] = Done st
    /\ (2 <= st_iter st)%Z.
Proof.
  destruct (run_em_settles Sample.Gamma Sample.eig_diag Sample.X2 2 200 0.0001 0 Sample.X2
              [1; 1] [0.5; 0.5] ltac:(lia)) as (o & [_ [n Hn]] & _ & Hret).
  destruct (returned_done _ (Hret ltac:(lia) ltac:(simpl; lia) ltac:(simpl; lia)
              ltac:(simpl; lia)
              (or_intror (conj MStepFacts.eig_diag_nonempty (Nat.le_succ_diag_r 1)))))
    as [st Ho].
  exists n, st. rewrite <- Ho. split; [apply Hn; lia|].
  refine (proj2 (proj2 (first_pass_never_converges Sample.Gamma Sample.eig_diag n Sample.X2
                          2 200 0.0001 0 Sample.X2 [1; 1] [0.5; 0.5] st _)) _).
  - rewrite <- Ho. apply Hn. lia.
  - lia.
Defined.

Lemma final_is_last_of_steps_witness :
  exists fuel mu kappa pi llh bounds,
    fst (wmm_fit Sample.seed_rng Sample.normal Sample.Gamma Sample.eig_diag fuel Sample.X2
           2 200 0.0001 (Some 7%Z) (InitDict Sample.X2 [1; 1] [0.5; 0.5]) false 0
           (World 0%nat 0%nat))
    = Done (Final mu kappa pi llh bounds).
Proof.
  destruct (wmm_fit_settles Sample.seed_rng Sample.normal Sample.Gamma Sample.eig_diag
              Sample.X2 2 200 0.0001 (Some 7%Z) (InitDict Sample.X2 [1; 1] [0.5; 0.5]) true 0
              (World 0%nat 0%nat) ltac:(lia)) as (o & [_ [n Hn]] & _ & Hret).
  destruct (returned_done _ (Hret ltac:(simpl; lia) ltac:(lia)
              ltac:(repeat split; try reflexivity; repeat constructor)
              (or_intror (conj MStepFacts.eig_diag_nonempty (Nat.le_succ_diag_r 1)))))
    as [r Ho].
  pose proof (Hn n (Nat.le_refl n)) as Hrun. rewrite Ho in Hrun.
  destruct (wmm_fit_done _ _ _ _ _ _ _ _ _ _ _ _ _ _ _ Hrun)
    as (w' & mu0 & kappa0 & pi0 & g & st & _ & _ & _ & Htrim).
  destruct r as [Mu Kappa Pi llh Bounds | ? ? ? ? ?]; [|discriminate Htrim].
  destruct (final_is_last_of_steps Sample.seed_rng Sample.normal Sample.Gamma
              Sample.eig_diag n Sample.X2 2 200 0.0001 (Some 7%Z)
              (InitDict Sample.X2 [1; 1] [0.5; 0.5]) 0 (World 0%nat 0%nat)
              Mu Kappa Pi llh Bounds Hrun) as (mu & kappa & pi & bounds & H & _).
  exists n, mu, kappa, pi, llh, bounds. exact H.
Defined.

Lemma spiral_needs_three_dimensions_witness :
  wmm_fit Sample.seed_rng Sample.normal Sample.Gamma Sample.eig_diag 0 Sample.X2 2 200
    0.0001 None (InitStr "Spiral") false 0 (World 0%nat 5%nat)
  = (Raise AssertionError, World 5%nat 5%nat).
Proof.
  refine (proj2 (spiral_needs_three_dimensions Sample.seed_rng Sample.normal Sample.Gamma
                   Sample.eig_diag 0 Sample.X2 2 200 0.0001 None "Spiral" false 0
                   (World 0%nat 5%nat) _ _) _).
  - reflexivity.
  - simpl. lia.
  - exact I.
Defined.

Lemma nonpositive_maxiter_fails_witness :
  settles (fun fuel => fst (wmm_fit Sample.seed_rng Sample.normal Sample.Gamma
                              Sample.eig_diag fuel Sample.X2 2 0 0.0001 None
                              (InitStr "random") false 0 (World 0%nat 5%nat)))
          (Raise IndexError).
Proof.
  refine (proj2 (nonpositive_maxiter_fails Sample.seed_rng Sample.normal Sample.Gamma
                   Sample.eig_diag Sample.X2 2 0 0.0001 None (InitStr "random") false 0
                   (World 0%nat 5%nat) _ _ _) _ _ _).
  - exact I.
  - lia.
  - simpl. discriminate.
  - reflexivity.
  - simpl. tauto.
  - simpl. lia.
Defined.

Lemma fit_without_draws_ignores_seed_witness :
  fst (wmm_fit Sample.seed_rng Sample.normal Sample.Gamma Sample.eig_diag 5 [[1; 0; 0]] 2
         200 0.0001 (Some 1%Z) InitNone true 0 (World 0%nat 5%nat))
  = fst (wmm_fit Sample.seed_rng Sample.normal Sample.Gamma Sample.eig_diag 5 [[1; 0; 0]] 2
           200 0.0001 None InitNone true 0 (World 3%nat 9%nat)).
Proof.
  apply fit_without_draws_ignores_seed.
  - reflexivity.
  - simpl. lia.
  - exact I.
Defined.

End FitMore.
